(** * CxxUrl: the lazy Url object of [url.hpp]

    A shallow embedding of class [CxxUrl::Url].  A [std::string] is a list of
    characters, the query [std::vector<KeyVal>] is a list, and a member
    function that may mutate the object and may throw is a function from the
    object to an outcome (value or exception) paired with the object as the
    call leaves it. *)

From Stdlib Require Import List Ascii String ZArith NArith Bool Arith Lia.
Import ListNotations.

Local Open Scope char_scope.
Local Open Scope list_scope.

(** ** Strings *)

(** [std::string]: a sequence of bytes. *)
Definition str : Type := list ascii.

(** String literals of the source. *)
Definition lit (s : string) : str := list_ascii_of_string s.

(** [std::string::operator==]. *)
Fixpoint str_eqb (a b : str) : bool :=
  match a, b with
  | [], [] => true
  | x :: a', y :: b' => Ascii.eqb x y && str_eqb a' b'
  | _, _ => false
  end.

(** ** Exceptions and outcomes *)

(** The exception classes a member function of [Url] can throw:
    [Url::parse_error], [Url::build_error] and [std::out_of_range]. *)
Inductive exn : Type :=
| parse_error
| build_error
| out_of_range.

Inductive res (A : Type) : Type :=
| Ok (a : A)
| Throw (e : exn).
Arguments Ok {A} a.
Arguments Throw {A} e.

(** ** Url::KeyVal *)

Record KeyVal : Type := mkKeyVal {
  m_key : str;
  m_val : str
}.

(** [KeyVal(const std::string& key, const std::string& val)]. *)
Definition KeyVal_key_val (key val : str) : KeyVal :=
  {| m_key := key; m_val := val |}.

(** [KeyVal(const std::string& key)]: [m_val] is default-constructed. *)
Definition KeyVal_key_only (key : str) : KeyVal :=
  {| m_key := key; m_val := [] |}.

(** [KeyVal::operator==]. *)
Definition KeyVal_eqb (a q : KeyVal) : bool :=
  str_eqb (m_key a) (m_key q) && str_eqb (m_val a) (m_val q).

(** [KeyVal::key() const] and [KeyVal::val() const]. *)
Definition key (kv : KeyVal) : str := m_key kv.
Definition val (kv : KeyVal) : str := m_val kv.

(** [KeyVal::key(k)] and [KeyVal::val(v)]. *)
Definition set_key (k : str) (kv : KeyVal) : KeyVal :=
  {| m_key := k; m_val := m_val kv |}.
Definition set_val (v : str) (kv : KeyVal) : KeyVal :=
  {| m_key := m_key kv; m_val := v |}.

(** [typedef std::vector<KeyVal> Query] with the vector's [operator==]. *)
Definition Query : Type := list KeyVal.

Fixpoint Query_eqb (a b : Query) : bool :=
  match a, b with
  | [], [] => true
  | x :: a', y :: b' => KeyVal_eqb x y && Query_eqb a' b'
  | _, _ => false
  end.

(** ** The field set and the Url object *)

(** What the parser produces and the builder consumes.  [f_ip_v] is the host
    kind as [m_ip_v] stores it: -1 undefined, 0 name, 4 IPv4, 6 IPv6. *)
Record Fields : Type := mkFields {
  f_scheme : str;
  f_user : str;
  f_host : str;
  f_ip_v : Z;
  f_port : str;
  f_path : str;
  f_query : Query;
  f_fragment : str
}.

(** The data members of [Url], in the order of their declaration. *)
Record Url : Type := mkUrl {
  m_scheme : str;
  m_user : str;
  m_host : str;
  m_port : str;
  m_path : str;
  m_query : Query;
  m_fragment : str;
  m_url : str;
  m_parse : bool;
  m_built : bool;
  m_ip_v : Z
}.

Definition fields_of (u : Url) : Fields :=
  {| f_scheme := m_scheme u; f_user := m_user u; f_host := m_host u;
     f_ip_v := m_ip_v u; f_port := m_port u; f_path := m_path u;
     f_query := m_query u; f_fragment := m_fragment u |}.

Definition with_fields (f : Fields) (u : Url) : Url :=
  {| m_scheme := f_scheme f; m_user := f_user f; m_host := f_host f;
     m_port := f_port f; m_path := f_path f; m_query := f_query f;
     m_fragment := f_fragment f; m_url := m_url u; m_parse := m_parse u;
     m_built := m_built u; m_ip_v := f_ip_v f |}.

Definition with_url (s : str) (u : Url) : Url :=
  {| m_scheme := m_scheme u; m_user := m_user u; m_host := m_host u;
     m_port := m_port u; m_path := m_path u; m_query := m_query u;
     m_fragment := m_fragment u; m_url := s; m_parse := m_parse u;
     m_built := m_built u; m_ip_v := m_ip_v u |}.

Definition with_parse (b : bool) (u : Url) : Url :=
  {| m_scheme := m_scheme u; m_user := m_user u; m_host := m_host u;
     m_port := m_port u; m_path := m_path u; m_query := m_query u;
     m_fragment := m_fragment u; m_url := m_url u; m_parse := b;
     m_built := m_built u; m_ip_v := m_ip_v u |}.

Definition with_built (b : bool) (u : Url) : Url :=
  {| m_scheme := m_scheme u; m_user := m_user u; m_host := m_host u;
     m_port := m_port u; m_path := m_path u; m_query := m_query u;
     m_fragment := m_fragment u; m_url := m_url u; m_parse := m_parse u;
     m_built := b; m_ip_v := m_ip_v u |}.

Definition with_query (q : Query) (u : Url) : Url :=
  {| m_scheme := m_scheme u; m_user := m_user u; m_host := m_host u;
     m_port := m_port u; m_path := m_path u; m_query := q;
     m_fragment := m_fragment u; m_url := m_url u; m_parse := m_parse u;
     m_built := m_built u; m_ip_v := m_ip_v u |}.

Definition with_port (p : str) (u : Url) : Url :=
  {| m_scheme := m_scheme u; m_user := m_user u; m_host := m_host u;
     m_port := p; m_path := m_path u; m_query := m_query u;
     m_fragment := m_fragment u; m_url := m_url u; m_parse := m_parse u;
     m_built := m_built u; m_ip_v := m_ip_v u |}.

(** ** Member functions as state transformers *)

(** A call on a [Url]: the outcome and the object after the call.  When the
    call throws, the object is as the throw left it. *)
Definition M (A : Type) : Type := Url -> res A * Url.

Definition ret {A} (a : A) : M A := fun u => (Ok a, u).
Definition throw {A} (e : exn) : M A := fun u => (Throw e, u).
Definition bind {A B} (m : M A) (k : A -> M B) : M B :=
  fun u => match m u with
           | (Ok a, u') => k a u'
           | (Throw e, u') => (Throw e, u')
           end.
Definition get : M Url := fun u => (Ok u, u).
Definition modify (f : Url -> Url) : M unit := fun u => (Ok tt, f u).

Declare Scope url_scope.
Delimit Scope url_scope with url.
Notation "x <- m ;; k" := (bind m (fun x => k))
  (at level 61, m at next level, right associativity) : url_scope.
Notation "m ;;; k" := (bind m (fun _ => k))
  (at level 61, right associativity) : url_scope.
Local Open Scope url_scope.

(** The constructors [Url()] and [Url(const std::string&)]: members without
    an initializer are default-constructed, hence empty. *)
Definition Url_default : Url :=
  {| m_scheme := []; m_user := []; m_host := []; m_port := []; m_path := [];
     m_query := []; m_fragment := []; m_url := [];
     m_parse := true; m_built := true; m_ip_v := (-1)%Z |}.

Definition Url_of_string (url_str : str) : Url :=
  {| m_scheme := []; m_user := []; m_host := []; m_port := []; m_path := [];
     m_query := []; m_fragment := []; m_url := url_str;
     m_parse := false; m_built := false; m_ip_v := (-1)%Z |}.

(** [Url& parse(const std::string& url_str)], which [operator=] on a string
    forwards to. *)
Definition parse (url_str : str) : M unit :=
  modify (fun u => with_parse false (with_built true (with_url url_str u))).

Definition assign_string (url_str : str) : M unit := parse url_str.

Section Engine.

(** The grammar of [url.cpp], which the header only declares: the text to
    field set function run by [parse_url] and the field set to text
    function run by [build_url]. *)
Variable parser : str -> res Fields.
Variable builder : Fields -> res str.

(** Modelled from the spec: [void parse_url(bool reparse = false) const] is
    declared in the header and defined in url.cpp; every call in the header
    passes the default argument.  It does nothing if [m_parse] is set; else
    it runs the parser over [m_url], populates the fields and sets
    [m_parse], leaving [m_url] and [m_built] untouched.  A parse failure
    throws before anything is committed. *)
Definition parse_url : M unit := fun u =>
  if m_parse u then (Ok tt, u)
  else match parser (m_url u) with
       | Ok f => (Ok tt, with_parse true (with_fields f u))
       | Throw e => (Throw e, u)
       end.

(** Modelled from the spec: [void build_url() const] is declared in the
    header and defined in url.cpp.  It does nothing if [m_built] is set;
    else it makes the fields fresh, runs the builder over them, overwrites
    [m_url] and sets [m_built]. *)
Definition build_url : M unit := fun u =>
  if m_built u then (Ok tt, u)
  else (parse_url ;;;
        u' <- get ;;
        match builder (fields_of u') with
        | Ok s => modify (fun v => with_built true (with_url s v))
        | Throw e => throw e
        end) u.

(** [std::string toString() const]. *)
Definition toString : M str := fun u =>
  ((if negb (m_built u) then build_url else ret tt) ;;;
   u' <- get ;; ret (m_url u')) u.

(** The field getters [scheme()], [user_info()], [host()], [ip_version()],
    [port()], [path()], [fragment()] and [query()]. *)
Definition getter {A} (field : Url -> A) : M A :=
  parse_url ;;; u <- get ;; ret (field u).

Definition scheme : M str := getter m_scheme.
Definition user_info : M str := getter m_user.
Definition host : M str := getter m_host.
Definition ip_version : M Z := getter m_ip_v.
Definition port : M str := getter m_port.
Definition path : M str := getter m_path.
Definition fragment : M str := getter m_fragment.
Definition query : M Query := getter m_query.

(** [const KeyVal& query(size_t i) const].  The index is only compared with
    the size of the vector, so a natural number stands for [size_t]. *)
Definition query_at (i : nat) : M KeyVal :=
  parse_url ;;;
  u <- get ;;
  match nth_error (m_query u) i with
  | None => throw out_of_range
  | Some kv => ret kv
  end.

(** [Query& set_query()]: the caller gets the vector itself. *)
Definition set_query : M Query :=
  parse_url ;;;
  modify (with_built false) ;;;
  u <- get ;; ret (m_query u).

(** [KeyVal& set_query(size_t i)]: the caller gets a reference to the
    entry at [i]; the value returned here is what the reference reads at
    the return, and [write_back] is a store through it. *)
Definition set_query_at (i : nat) : M KeyVal :=
  parse_url ;;;
  u <- get ;;
  match nth_error (m_query u) i with
  | None => throw out_of_range
  | Some kv => modify (with_built false) ;;; ret kv
  end.

(** [Url& set_query(const Query& q)]. *)
Definition set_query_all (q : Query) : M unit :=
  parse_url ;;;
  u <- get ;;
  if negb (Query_eqb q (m_query u))
  then modify (fun v => with_built false (with_query q v))
  else ret tt.

(** The three overloads of [add_query]. *)
Definition add_query (kv : KeyVal) : M unit :=
  parse_url ;;;
  modify (with_built false) ;;;
  modify (fun u => with_query (m_query u ++ [kv]) u).

Definition add_query_key_val (k v : str) : M unit :=
  parse_url ;;;
  modify (with_built false) ;;;
  modify (fun u => with_query (m_query u ++ [KeyVal_key_val k v]) u).

Definition add_query_key (k : str) : M unit :=
  parse_url ;;;
  modify (with_built false) ;;;
  modify (fun u => with_query (m_query u ++ [KeyVal_key_only k]) u).

End Engine.

(** A store of [kv] through the reference that [set_query(i)] returned: the
    entry at [i] of the object's own vector is overwritten. *)
Fixpoint update_nth (i : nat) (kv : KeyVal) (q : Query) : Query :=
  match q, i with
  | [], _ => []
  | _ :: q', O => kv :: q'
  | x :: q', S j => x :: update_nth j kv q'
  end.

Definition write_back (i : nat) (kv : KeyVal) (u : Url) : Url :=
  with_query (update_nth i kv (m_query u)) u.

(** ** Character classes *)

Definition in_range (lo hi c : ascii) : bool :=
  (N_of_ascii lo <=? N_of_ascii c)%N && (N_of_ascii c <=? N_of_ascii hi)%N.

Definition is_digit (c : ascii) : bool := in_range "0" "9" c.
Definition is_alpha (c : ascii) : bool :=
  in_range "a" "z" c || in_range "A" "Z" c.
Definition is_hex (c : ascii) : bool :=
  is_digit c || in_range "a" "f" c || in_range "A" "F" c.

Fixpoint mem (c : ascii) (s : str) : bool :=
  match s with
  | [] => false
  | x :: s' => Ascii.eqb c x || mem c s'
  end.

(** ** Decimal numbers: [std::to_string] and the value of a digit string *)

Definition digit_val (c : ascii) : N := (N_of_ascii c - 48)%N.
Definition digit_char (d : N) : ascii := ascii_of_N (48 + d).

(** The number a string of decimal digits denotes, most significant digit
    first. *)
Definition num_value (s : str) : N :=
  fold_left (fun acc c => (10 * acc + digit_val c)%N) s 0%N.

Fixpoint to_string_aux (fuel : nat) (n : N) (acc : str) : str :=
  match fuel with
  | O => acc
  | S fuel' =>
      let acc' := digit_char (n mod 10) :: acc in
      if (n / 10 =? 0)%N then acc' else to_string_aux fuel' (n / 10) acc'
  end.

(** [std::to_string] on an unsigned value: its decimal digits without
    leading zeros.  A number has no more decimal than binary digits, which
    bounds the loop. *)
Definition to_string (n : N) : str :=
  to_string_aux (S (N.to_nat (N.size n))) n [].

(** The conversion of an integer argument to [std::uint16_t]. *)
Definition to_uint16 (z : Z) : N := Z.to_N (z mod 65536).

(** ** Encoder and decoder *)

(** Modelled from the spec: the allow-lists of url.cpp are not in the header.
    Unreserved characters are letters, digits and [-._~]; the sub-delimiters
    are those of the standard URI grammar, [!$&'()*+,;=]. *)
Definition unreserved (c : ascii) : bool :=
  is_alpha c || is_digit c || mem c (lit "-._~").

(** Modelled from the spec: the sub-delimiters, which the spec leaves to the
    standard URI grammar. *)
Definition sub_delims : str := lit "!$&'()*+,;=".

(** Modelled from the spec: the allow-list of user_info of url.cpp, the
    unreserved characters, the sub-delimiters and [:]. *)
Definition allow_user (c : ascii) : bool :=
  unreserved c || mem c sub_delims || Ascii.eqb c ":".

(** Modelled from the spec: the allow-list of the host of url.cpp, that of
    user_info. *)
Definition allow_host (c : ascii) : bool := allow_user c.

(** Modelled from the spec: the allow-list of the path of url.cpp, the
    unreserved characters, [/], [:], [@] and the sub-delimiters. *)
Definition allow_path (c : ascii) : bool :=
  unreserved c || mem c (lit "/:@") || mem c sub_delims.

(** Modelled from the spec: the allow-list of query keys and values of
    url.cpp, the unreserved characters, [/], [?] and the sub-delimiters
    except [&] and [=]. *)
Definition allow_query (c : ascii) : bool :=
  unreserved c || mem c (lit "/?")
  || (mem c sub_delims && negb (mem c (lit "&="))).

(** Modelled from the spec: the allow-list of the fragment of url.cpp, the
    unreserved characters, [/], [?] and the sub-delimiters. *)
Definition allow_fragment (c : ascii) : bool :=
  unreserved c || mem c (lit "/?") || mem c sub_delims.

(** Modelled from the spec: the hex digits of an escape of url.cpp, written
    in upper case and read in either case. *)
Definition hex_char (d : N) : ascii :=
  if (d <? 10)%N then ascii_of_N (48 + d) else ascii_of_N (55 + d).

Definition hex_val (c : ascii) : option N :=
  if is_digit c then Some (N_of_ascii c - 48)%N
  else if in_range "a" "f" c then Some (N_of_ascii c - 87)%N
  else if in_range "A" "F" c then Some (N_of_ascii c - 55)%N
  else None.

(** Modelled from the spec: percent-encoding of url.cpp.  A byte outside the
    allow-list becomes [%] and two uppercase hexadecimal digits. *)
Definition encode_char (allow : ascii -> bool) (c : ascii) : str :=
  if allow c then [c]
  else ["%"; hex_char (N_of_ascii c / 16); hex_char (N_of_ascii c mod 16)].

(** Modelled from the spec: the encoder of url.cpp on a whole component. *)
Definition encode (allow : ascii -> bool) (s : str) : str :=
  flat_map (encode_char allow) s.

(** Modelled from the spec: percent-decoding of url.cpp.  [%XX] with hex
    digits of either case is one byte; a [%] not followed by two hex digits
    is a parse error. *)
Fixpoint decode (s : str) : res str :=
  match s with
  | [] => Ok []
  | c :: s' =>
      if Ascii.eqb c "%" then
        match s' with
        | h :: l :: s'' =>
            match hex_val h, hex_val l with
            | Some a, Some b =>
                match decode s'' with
                | Ok r => Ok (ascii_of_N (16 * a + b) :: r)
                | Throw e => Throw e
                end
            | _, _ => Throw parse_error
            end
        | _ => Throw parse_error
        end
      else
        match decode s' with
        | Ok r => Ok (c :: r)
        | Throw e => Throw e
        end
  end.

(** ** Splitting text *)

Definition is_nil {A} (l : list A) : bool :=
  match l with [] => true | _ => false end.

Definition starts_with (c : ascii) (s : str) : bool :=
  match s with
  | [] => false
  | x :: _ => Ascii.eqb x c
  end.

(** The longest prefix without a character of [stop], and what follows. *)
Fixpoint span_until (stop : ascii -> bool) (s : str) : str * str :=
  match s with
  | [] => ([], [])
  | c :: s' =>
      if stop c then ([], s)
      else let (a, b) := span_until stop s' in (c :: a, b)
  end.

(** The text before and after the first occurrence of [c]. *)
Fixpoint split_first (c : ascii) (s : str) : option (str * str) :=
  match s with
  | [] => None
  | x :: s' =>
      if Ascii.eqb x c then Some ([], s')
      else match split_first c s' with
           | Some (a, b) => Some (x :: a, b)
           | None => None
           end
  end.

(** The text before and after the last occurrence of [c]. *)
Fixpoint split_last (c : ascii) (s : str) : option (str * str) :=
  match s with
  | [] => None
  | x :: s' =>
      match split_last c s' with
      | Some (a, b) => Some (x :: a, b)
      | None => if Ascii.eqb x c then Some ([], s') else None
      end
  end.

(** The tokens between the occurrences of [c]: one more than there are
    separators. *)
Fixpoint split_on (c : ascii) (s : str) : list str :=
  match s with
  | [] => [[]]
  | x :: s' =>
      if Ascii.eqb x c then [] :: split_on c s'
      else match split_on c s' with
           | t :: ts => (x :: t) :: ts
           | [] => [[x]]
           end
  end.

Fixpoint join (c : ascii) (ts : list str) : str :=
  match ts with
  | [] => []
  | t :: ts' =>
      match ts' with
      | [] => t
      | _ :: _ => t ++ c :: join c ts'
      end
  end.

(** The error monad of the parser and the builder. *)
Definition rbind {A B} (r : res A) (k : A -> res B) : res B :=
  match r with
  | Ok a => k a
  | Throw e => Throw e
  end.

Fixpoint rmap {A B} (f : A -> res B) (l : list A) : res (list B) :=
  match l with
  | [] => Ok []
  | x :: l' => rbind (f x) (fun y => rbind (rmap f l') (fun ys => Ok (y :: ys)))
  end.

(** ** Host classifier and port *)

(** Modelled from the spec: the port check of url.cpp.  All decimal digits
    with a value of at most 65535; the empty string (no digit, value 0) is
    the unspecified port. *)
Definition is_port (s : str) : bool :=
  forallb is_digit s && (num_value s <=? 65535)%N.

(** Modelled from the spec: the IPv4 check of url.cpp.  Four dot-separated
    decimal octets, 0 to 255, no non-zero value with a leading zero. *)
Definition is_octet (p : str) : bool :=
  negb (is_nil p) && forallb is_digit p && (num_value p <=? 255)%N
  && (negb (starts_with "0" p) || (num_value p =? 0)%N).

(** Modelled from the spec: the IPv4 check of url.cpp on the whole host. *)
Definition is_ipv4 (s : str) : bool :=
  match split_on "." s with
  | [a; b; c; d] => is_octet a && is_octet b && is_octet c && is_octet d
  | _ => false
  end.

(** Modelled from the spec: the zero-compression run of an IPv6 literal in
    url.cpp; the text before and after the first [::]. *)
Fixpoint split_dcolon (s : str) : option (str * str) :=
  match s with
  | [] => None
  | x :: s' =>
      match s' with
      | [] => None
      | y :: s'' =>
          if Ascii.eqb x ":" && Ascii.eqb y ":" then Some ([], s'')
          else match split_dcolon s' with
               | Some (a, b) => Some (x :: a, b)
               | None => None
               end
      end
  end.

(** Modelled from the spec: a hextet of url.cpp, one to four hex digits. *)
Definition is_hextet (h : str) : bool :=
  negb (is_nil h) && (List.length h <=? 4)%nat && forallb is_hex h.

(** Modelled from the spec: the colon-separated hextets on one side of
    [::], none when the side is empty. *)
Definition hextets (s : str) : list str :=
  if is_nil s then [] else split_on ":" s.

(** Modelled from the spec: the IPv6 check of url.cpp.  Eight
    colon-separated hextets, or fewer around a single [::]. *)
Definition is_ipv6 (s : str) : bool :=
  match split_dcolon s with
  | None =>
      let g := split_on ":" s in
      forallb is_hextet g && (List.length g =? 8)%nat
  | Some (l, r) =>
      let g := hextets l ++ hextets r in
      forallb is_hextet g && (List.length g <=? 7)%nat
  end.

(** ** Parser *)

(** Modelled from the spec: the scheme syntax of url.cpp, a letter followed
    by letters, digits, [+], [-] and [.]. *)
Definition is_scheme_char (c : ascii) : bool :=
  is_alpha c || is_digit c || mem c (lit "+-.").

Definition is_scheme (s : str) : bool :=
  match s with
  | [] => false
  | c :: s' => is_alpha c && forallb is_scheme_char s'
  end.

(** Modelled from the spec: the characters that end the path and the
    authority in url.cpp. *)
Definition path_end (c : ascii) : bool := mem c (lit "?#").

Definition authority_end (c : ascii) : bool := mem c (lit "/?#").

(** Modelled from the spec: the scan for the scheme in url.cpp; the text
    before a [:] that occurs before any of [/], [?], [#], and the text after
    it. *)
Fixpoint scheme_end (s : str) : option (str * str) :=
  match s with
  | [] => None
  | c :: s' =>
      if Ascii.eqb c ":" then Some ([], s')
      else if authority_end c then None
      else match scheme_end s' with
           | Some (a, b) => Some (c :: a, b)
           | None => None
           end
  end.

(** Modelled from the spec: step 1 of the parser of url.cpp.  Without a
    well-formed scheme before the first [:], the scheme is empty and the
    whole input is a relative reference.  This is step 1 of section 4.2 as
    it is worded; the last paragraph of that section counts invalid scheme
    syntax among the parse errors, and [take_scheme_in] below has both. *)
Definition take_scheme (raw : str) : str * str :=
  match scheme_end raw with
  | Some (a, rest) => if is_scheme a then (a, rest) else ([], raw)
  | None => ([], raw)
  end.

(** Modelled from the spec: step 2, the extent of the authority. *)
Definition take_authority (s : str) : option str * str :=
  match s with
  | a :: b :: t =>
      if Ascii.eqb a "/" && Ascii.eqb b "/" then
        let (a, r) := span_until authority_end t in (Some a, r)
      else (None, s)
  | _ => (None, s)
  end.

(** Modelled from the spec: the host:port split point is the last [:] that
    is not inside the bracket pair. *)
Definition split_host_port (hp : str) : str * str :=
  if starts_with "[" hp then
    match split_first "]" (tl hp) with
    | Some (inner, after) =>
        match split_last ":" after with
        | Some (a, p) => ("[" :: inner ++ "]" :: a, p)
        | None => (hp, [])
        end
    | None => (hp, [])
    end
  else
    match split_last ":" hp with
    | Some (h, p) => (h, p)
    | None => (hp, [])
    end.

(** Modelled from the spec: step 3.  A host that starts with [[] must end
    with []] and enclose an IPv6 literal, which is stored without the
    brackets; a dotted quad is IPv4; anything else is a name and is
    percent-decoded.  An empty host is the unspecified host. *)
Definition classify_host (h : str) : res (str * Z) :=
  if is_nil h then Ok ([], (-1)%Z)
  else if starts_with "[" h then
    match rev (tl h) with
    | c :: r =>
        if Ascii.eqb c "]" && is_ipv6 (rev r) then Ok (rev r, 6%Z)
        else Throw parse_error
    | [] => Throw parse_error
    end
  else if is_ipv4 h then Ok (h, 4%Z)
  else rbind (decode h) (fun d => Ok (d, 0%Z)).

(** Modelled from the spec: steps 2 to 4 on the text of the authority,
    giving user_info, host, host kind and port. *)
Definition parse_authority (a : str) : res (str * (str * Z) * str) :=
  let (rawuser, hp) :=
    match split_last "@" a with
    | Some (u, h) => (u, h)
    | None => ([], a)
    end in
  let (h, p) := split_host_port hp in
  rbind (decode rawuser) (fun user =>
  rbind (classify_host h) (fun hk =>
  if is_port p then Ok (user, hk, p) else Throw parse_error)).

(** Modelled from the spec: step 6, one token of the query. *)
Definition parse_token (t : str) : res KeyVal :=
  let (k, v) :=
    match split_first "=" t with
    | Some (k, v) => (k, v)
    | None => (t, [])
    end in
  rbind (decode k) (fun k' =>
  rbind (decode v) (fun v' => Ok (KeyVal_key_val k' v'))).

(** Modelled from the spec: step 6, the tokens between the [&] in their
    order; no query when there is no [?]. *)
Definition parse_query (q : option str) : res Query :=
  match q with
  | None => Ok []
  | Some t => rmap parse_token (split_on "&" t)
  end.

(** Modelled from the spec: steps 5 to 7, the extents of path, query and
    fragment in what follows the authority.  The query is present when a
    [?] follows the path; the fragment is what follows the first [#]. *)
Definition split_tail (r2 : str) : str * option str * str :=
  let (rawpath, r3) := span_until path_end r2 in
  let (rawquery, r4) :=
    if starts_with "?" r3 then
      let (q, r) := span_until (Ascii.eqb "#") (tl r3) in (Some q, r)
    else (None, r3) in
  (rawpath, rawquery, if starts_with "#" r4 then tl r4 else []).

(** Modelled from the spec: the parser of url.cpp, section 4.2, the grammar
    [scheme ":" ["//" authority] path ["?" query] ["#" fragment]]. *)
Definition parse_fields (raw : str) : res Fields :=
  let (sch, r1) := take_scheme raw in
  let (auth, r2) := take_authority r1 in
  let '(rawpath, rawquery, rawfragment) := split_tail r2 in
  rbind (match auth with
         | Some a => parse_authority a
         | None => Ok ([], ([], (-1)%Z), [])
         end) (fun '(user, (h, k), p) =>
  rbind (decode rawpath) (fun pth =>
  rbind (parse_query rawquery) (fun q =>
  rbind (decode rawfragment) (fun fr =>
  Ok {| f_scheme := sch; f_user := user; f_host := h; f_ip_v := k;
        f_port := p; f_path := pth; f_query := q; f_fragment := fr |})))).

(** ** Builder *)

(** Modelled from the spec: a query token is the encoded key, and [=] with
    the encoded value when there is a value to write.  [KeyVal] stores the
    value as a plain string, so a value is written exactly when it is not
    empty. *)
Definition build_token (kv : KeyVal) : str :=
  encode allow_query (m_key kv)
  ++ (if is_nil (m_val kv) then []
      else "=" :: encode allow_query (m_val kv)).

(** Modelled from the spec: the host as the builder writes it, checked
    against the recorded host kind. *)
Definition build_host (f : Fields) : res str :=
  if (f_ip_v f =? 6)%Z then
    if is_ipv6 (f_host f) then Ok ("[" :: f_host f ++ ["]"])
    else Throw build_error
  else if (f_ip_v f =? 4)%Z then
    if is_ipv4 (f_host f) then Ok (encode allow_host (f_host f))
    else Throw build_error
  else Ok (encode allow_host (f_host f)).

(** Modelled from the spec: an authority is present when the host or
    user_info is not empty. *)
Definition has_authority (f : Fields) : bool :=
  negb (is_nil (f_host f)) || negb (is_nil (f_user f)).

(** Modelled from the spec: an absolute path starts with [/]. *)
Definition is_absolute (p : str) : bool := starts_with "/" p.

(** Modelled from the spec: the pieces the builder writes in fixed order.
    The [:] of the separator belongs to the scheme and is written only
    after a non-empty scheme; [//] opens a present authority; user_info is
    followed by [@], the port is preceded by [:], the query by [?] and the
    fragment by [#], each only when there is something to write.  Section
    4.3 as it is worded writes ["://"] before every authority, with or
    without a scheme; [build_separator] below has both. *)
Definition build_scheme (sch : str) : str :=
  if is_nil sch then [] else sch ++ [":"].

Definition build_user (user : str) : str :=
  if is_nil user then [] else encode allow_user user ++ ["@"].

Definition build_port (p : str) : str :=
  if is_nil p then [] else ":" :: p.

Definition build_query (q : Query) : str :=
  if is_nil q then [] else "?" :: join "&" (map build_token q).

Definition build_fragment (fr : str) : str :=
  if is_nil fr then [] else "#" :: encode allow_fragment fr.

Definition build_tail (f : Fields) : str :=
  encode allow_path (f_path f) ++ build_query (f_query f)
  ++ build_fragment (f_fragment f).

(** Modelled from the spec: the builder of url.cpp, section 4.3.  It fails
    on a host that does not fit its recorded kind, on a port that is not a
    number up to 65535, and on a relative path after an authority. *)
Definition build_fields (f : Fields) : res str :=
  rbind (build_host f) (fun h =>
  if negb (is_port (f_port f)) then Throw build_error
  else if has_authority f && negb (is_nil (f_path f))
          && negb (is_absolute (f_path f)) then Throw build_error
  else
    Ok (build_scheme (f_scheme f)
        ++ (if has_authority f then lit "//" else [])
        ++ build_user (f_user f) ++ h ++ build_port (f_port f)
        ++ build_tail f)).

(** ** The two places where the grammar can be read in two ways *)

(** Modelled from the spec: sections 4.2 and 4.3 leave two things open.
    - [scheme_errors]: a [:] occurs before any of [/], [?], [#] and the text
      before it is not a scheme name.  Step 1 of section 4.2 makes the
      scheme empty and the input a relative reference ([false]); the last
      paragraph of 4.2 and section 7 make invalid scheme syntax a parse
      error ([true]).
    - [colon_always]: an authority is written and the scheme is empty.
      Section 4.3 as worded writes ["://"] whenever an authority is present
      ([true]); the grammar of 4.2 has the [:] after a scheme only, so that
      a scheme-less reference begins with ["//"] ([false]).
    [parse_fields] and [build_fields] above are the parser and the builder
    with both set to [false]. *)
Record reading : Type := mkReading {
  scheme_errors : bool;
  colon_always : bool
}.

(** Every reading. *)
Definition readings : list reading :=
  [mkReading false false; mkReading false true;
   mkReading true false; mkReading true true].

(** Modelled from the spec: step 1 of the parser in a reading. *)
Definition take_scheme_in (r : reading) (raw : str) : res (str * str) :=
  match scheme_end raw with
  | Some (a, rest) =>
      if is_scheme a then Ok (a, rest)
      else if scheme_errors r then Throw parse_error
      else Ok ([], raw)
  | None => Ok ([], raw)
  end.

(** Modelled from the spec: the parser of section 4.2 in a reading; steps 2
    to 7 are those of [parse_fields]. *)
Definition parse_fields_in (r : reading) (raw : str) : res Fields :=
  rbind (take_scheme_in r raw) (fun '(sch, r1) =>
  let (auth, r2) := take_authority r1 in
  let '(rawpath, rawquery, rawfragment) := split_tail r2 in
  rbind (match auth with
         | Some a => parse_authority a
         | None => Ok ([], ([], (-1)%Z), [])
         end) (fun '(user, (h, k), p) =>
  rbind (decode rawpath) (fun pth =>
  rbind (parse_query rawquery) (fun q =>
  rbind (decode rawfragment) (fun fr =>
  Ok {| f_scheme := sch; f_user := user; f_host := h; f_ip_v := k;
        f_port := p; f_path := pth; f_query := q; f_fragment := fr |}))))).

(** Modelled from the spec: what the builder writes between the scheme and
    the authority or the path: ["://"] before an authority, [":"] after a
    scheme that no authority follows; before an authority without a scheme
    ["://"] or ["//"], by the reading. *)
Definition build_separator (r : reading) (f : Fields) : str :=
  if has_authority f then
    if colon_always r || negb (is_nil (f_scheme f)) then lit "://"
    else lit "//"
  else if is_nil (f_scheme f) then [] else lit ":".

(** Modelled from the spec: the builder of section 4.3 in a reading; the
    checks and the other pieces are those of [build_fields]. *)
Definition build_fields_in (r : reading) (f : Fields) : res str :=
  rbind (build_host f) (fun h =>
  if negb (is_port (f_port f)) then Throw build_error
  else if has_authority f && negb (is_nil (f_path f))
          && negb (is_absolute (f_path f)) then Throw build_error
  else
    Ok (f_scheme f ++ build_separator r f
        ++ build_user (f_user f) ++ h ++ build_port (f_port f)
        ++ build_tail f)).

(** ** The string port setter *)

Section PortSetter.

Variable parser : str -> res Fields.

(** Modelled from the spec: [Url& port(std::string str)] is declared in the
    header and defined in url.cpp.  The new value is validated first, so a
    failed call leaves the object as it was; then the fields are made fresh,
    the port is written and the raw form is marked stale. *)
Definition set_port (s : str) : M unit :=
  if is_port s then
    parse_url parser ;;;
    modify (fun u => with_built false (with_port s u))
  else throw parse_error.

(** [Url& port(std::uint16_t num)]: the argument arrives converted to 16
    bits. *)
Definition set_port_num (num : Z) : M unit :=
  set_port (to_string (to_uint16 num)).

End PortSetter.

(** The member functions with the parser and builder above in place. *)
Definition url_parse_url : M unit := parse_url parse_fields.
Definition url_build_url : M unit := build_url parse_fields build_fields.
Definition url_toString : M str := toString parse_fields build_fields.

(** What a caller can observe of an object through its const interface: the
    outcome of [toString()] and the outcome of the field getters. *)
Definition visible (parser : str -> res Fields) (builder : Fields -> res str)
    (u : Url) : res str * res Fields :=
  (fst (toString parser builder u), fst (getter parser fields_of u)).

(** Invariant I1: the two freshness flags are not both false. *)
Definition I1 (u : Url) : bool := m_parse u || m_built u.

(** ** Predicates and examples of the statements *)

(** No character of the text satisfies [stop]. *)
Definition free (stop : ascii -> bool) (s : str) : bool :=
  forallb (fun c => negb (stop c)) s.

(** What follows a component: nothing, or a character that ends it. *)
Definition starts_stop (stop : ascii -> bool) (b : str) : bool :=
  match b with
  | [] => true
  | c :: _ => stop c
  end.

Definition is_char (c : ascii) : ascii -> bool := fun x => Ascii.eqb x c.

(** The characters of IPv6 literals and of dotted quads. *)
Definition ip6_char (c : ascii) : bool := is_hex c || is_char ":" c.

Definition ip4_char (c : ascii) : bool := is_digit c || is_char "." c.

(** A host text fits a host kind. *)
Definition kind_ok (h : str) (k : Z) : bool :=
  if (k =? 6)%Z then is_ipv6 h
  else if (k =? 4)%Z then is_ipv4 h
  else if (k =? 0)%Z then negb (is_nil h)
  else (k =? -1)%Z && is_nil h.

(** The host fits its kind: an IPv6 or IPv4 literal, a non-empty name, or
    no host at all. *)
Definition host_kind_ok (f : Fields) : bool := kind_ok (f_host f) (f_ip_v f).

(** What every field set that comes out of the parser satisfies. *)
Definition well_formed (f : Fields) : bool :=
  (is_nil (f_scheme f) || is_scheme (f_scheme f))
  && is_port (f_port f)
  && host_kind_ok f
  && (negb (has_authority f) || is_nil (f_path f) || is_absolute (f_path f)).

(** The path begins with a well-formed scheme name and a [:]. *)
Definition names_scheme (p : str) : bool :=
  match split_first ":" p with
  | Some (a, _) => is_scheme a
  | None => false
  end.

Definition is_double_slash (p : str) : bool :=
  starts_with "/" p && starts_with "/" (tl p).

(** The field sets whose serialized text cannot be read in a second way:
    without an authority (no host, no user_info) the port is empty, the
    path does not begin with [//] and, when the scheme is empty too, the
    path does not begin with a scheme name and [:]; and a host name is not
    a dotted quad and has no [:] unless a port follows it. *)
Definition unambiguous (f : Fields) : bool :=
  (has_authority f
   || (is_nil (f_port f) && negb (is_double_slash (f_path f))
       && (negb (is_nil (f_scheme f)) || negb (names_scheme (f_path f)))))
  && (negb (f_ip_v f =? 0)%Z
      || ((free (is_char ":") (f_host f) || negb (is_nil (f_port f)))
          && negb (is_ipv4 (f_host f)))).

(** The text the builder writes for the host, and for a whole field set,
    when it does not fail. *)
Definition host_text (f : Fields) : str :=
  if (f_ip_v f =? 6)%Z then "[" :: f_host f ++ ["]"]
  else encode allow_host (f_host f).

Definition built_text (f : Fields) : str :=
  build_scheme (f_scheme f)
  ++ (if has_authority f then lit "//" else [])
  ++ build_user (f_user f) ++ host_text f ++ build_port (f_port f)
  ++ build_tail f.

(** Structural equality of field sets. *)
Definition Fields_eqb (a b : Fields) : bool :=
  str_eqb (f_scheme a) (f_scheme b) && str_eqb (f_user a) (f_user b)
  && str_eqb (f_host a) (f_host b) && (f_ip_v a =? f_ip_v b)%Z
  && str_eqb (f_port a) (f_port b) && str_eqb (f_path a) (f_path b)
  && Query_eqb (f_query a) (f_query b)
  && str_eqb (f_fragment a) (f_fragment b).

(** Parsing [U], serializing the fields and parsing the text again gives
    the fields of [U]. *)
Definition reads_back (U : str) : bool :=
  match parse_fields U with
  | Ok F =>
      match rbind (build_fields F) parse_fields with
      | Ok F' => Fields_eqb F F'
      | Throw _ => false
      end
  | Throw _ => false
  end.

Definition parsed_unambiguous (U : str) : bool :=
  match parse_fields U with
  | Ok F => unambiguous F
  | Throw _ => false
  end.

(** A [:] occurs before any of [/], [?], [#] and the text before it is not a
    scheme name: what the last paragraph of section 4.2 calls invalid scheme
    syntax. *)
Definition bad_scheme (raw : str) : bool :=
  match scheme_end raw with
  | Some (a, _) => negb (is_scheme a)
  | None => false
  end.

(** The first segment of the path, the text before its first [/], has a
    [:]. *)
Definition colon_segment (p : str) : bool :=
  match split_first ":" p with
  | Some (a, _) => free (is_char "/") a
  | None => false
  end.

(** The field sets whose serialized text cannot be read in a second way, in
    a reading: those of [unambiguous]; where invalid scheme syntax is a
    parse error, a field set without scheme and authority has no [:] in the
    first segment of its path; where ["://"] is written before every
    authority, a field set with an authority has a scheme. *)
Definition unambiguous_in (r : reading) (f : Fields) : bool :=
  unambiguous f
  && (negb (scheme_errors r) || has_authority f
      || negb (is_nil (f_scheme f)) || negb (colon_segment (f_path f)))
  && (negb (colon_always r) || negb (has_authority f)
      || negb (is_nil (f_scheme f))).

(** The text the builder writes in a reading when it does not fail. *)
Definition built_text_in (r : reading) (f : Fields) : str :=
  f_scheme f ++ build_separator r f
  ++ build_user (f_user f) ++ host_text f ++ build_port (f_port f)
  ++ build_tail f.

Definition reads_back_in (r : reading) (U : str) : bool :=
  match parse_fields_in r U with
  | Ok F =>
      match rbind (build_fields_in r F) (parse_fields_in r) with
      | Ok F' => Fields_eqb F F'
      | Throw _ => false
      end
  | Throw _ => false
  end.

Definition parsed_unambiguous_in (r : reading) (U : str) : bool :=
  match parse_fields_in r U with
  | Ok F => unambiguous_in r F
  | Throw _ => false
  end.

(** The decimal digit string of a number: at least one character, decimal
    digits only, no leading zero unless it is the one digit, and the number
    as its value. *)
Definition is_decimal_of (n : N) (s : str) : bool :=
  negb (is_nil s) && forallb is_digit s
  && (negb (starts_with "0" s) || is_nil (tl s))
  && (num_value s =? n)%N.

(** An object whose query is [a=1] and whose raw form is fresh: one entry
    was appended to the empty Url and the Url was serialized. *)
Definition url_a1 : Url :=
  snd (url_toString
         (snd (add_query_key_val parse_fields (lit "a") (lit "1")
                 Url_default))).

(** The query sequence of the example. *)
Definition query_a1_b_a2 : Query :=
  [KeyVal_key_val (lit "a") (lit "1"); KeyVal_key_val (lit "b") [];
   KeyVal_key_val (lit "a") (lit "2")].

(** The Url that holds it: the three entries appended to the empty Url. *)
Definition url_a1_b_a2 : Url :=
  snd ((add_query_key_val parse_fields (lit "a") (lit "1") ;;;
        add_query_key_val parse_fields (lit "b") [] ;;;
        add_query_key_val parse_fields (lit "a") (lit "2")) Url_default).

(** The fields of ["a%3Ab"]: a relative path ["a:b"]. *)
Definition fields_a_colon_b : Fields :=
  {| f_scheme := []; f_user := []; f_host := []; f_ip_v := (-1)%Z;
     f_port := []; f_path := lit "a:b"; f_query := []; f_fragment := [] |}.

(** The fields of ["a:b"]: scheme ["a"] and path ["b"]. *)
Definition fields_a_b : Fields :=
  {| f_scheme := lit "a"; f_user := []; f_host := []; f_ip_v := (-1)%Z;
     f_port := []; f_path := lit "b"; f_query := []; f_fragment := [] |}.

(** A Url with every component. *)
Definition url_full : str :=
  lit "http://user:pw@example.com:8080/a%2Fb/c?a=1&b=&a=2#frag".

Definition fields_full : Fields :=
  {| f_scheme := lit "http"; f_user := lit "user:pw";
     f_host := lit "example.com"; f_ip_v := 0%Z; f_port := lit "8080";
     f_path := lit "/a/b/c"; f_query := query_a1_b_a2;
     f_fragment := lit "frag" |}.

(** ** Calls on an object *)

(** [void KeyVal::swap(KeyVal& q)]: [std::swap] on each member; the pair is
    this object and [q] after the call. *)
Definition swap (a q : KeyVal) : KeyVal * KeyVal :=
  ({| m_key := m_key q; m_val := m_val q |},
   {| m_key := m_key a; m_val := m_val a |}).

(** The calls of the header a caller can make on an object, one after the
    other: [parse] and assignment of a string, [toString], a field getter,
    [query(i)], [set_query()], [set_query(i)] with or without a store
    through the reference it returns, [set_query(q)] and [add_query]. *)
Inductive call : Type :=
| call_parse (s : str)
| call_toString
| call_getter
| call_query_at (i : nat)
| call_set_query
| call_set_query_at (i : nat) (store : option KeyVal)
| call_set_query_all (q : Query)
| call_add_query (kv : KeyVal).

(** The object after one call; a call that throws leaves the object as the
    throw found it, and the caller goes on. *)
Definition run_call (parser : str -> res Fields) (builder : Fields -> res str)
    (c : call) (u : Url) : Url :=
  match c with
  | call_parse s => snd (parse s u)
  | call_toString => snd (toString parser builder u)
  | call_getter => snd (getter parser fields_of u)
  | call_query_at i => snd (query_at parser i u)
  | call_set_query => snd (set_query parser u)
  | call_set_query_at i store =>
      match set_query_at parser i u, store with
      | (Ok _, u'), Some kv => write_back i kv u'
      | (_, u'), _ => u'
      end
  | call_set_query_all q => snd (set_query_all parser q u)
  | call_add_query kv => snd (add_query parser kv u)
  end.

Fixpoint run_calls (parser : str -> res Fields) (builder : Fields -> res str)
    (cs : list call) (u : Url) : Url :=
  match cs with
  | [] => u
  | c :: cs' => run_calls parser builder cs' (run_call parser builder c u)
  end.

(** An object whose raw string has a malformed escape. *)
Definition url_bad_escape : Url := snd (parse (lit "%zz") Url_default).

(** * Properties *)

(** ** Structural equality *)

Lemma str_eqb_eq (a b : str) : str_eqb a b = true <-> a = b.
Proof.
  revert b; induction a as [|x a IH]; intros [|y b]; simpl;
    try (split; [discriminate | congruence]); try tauto.
  rewrite andb_true_iff, Ascii.eqb_eq, IH.
  split; [intros [-> ->]; reflexivity | intros H; inversion H; auto].
Qed.

Lemma str_eqb_refl (a : str) : str_eqb a a = true.
Proof. apply str_eqb_eq; reflexivity. Qed.

Lemma KeyVal_eqb_eq (a b : KeyVal) : KeyVal_eqb a b = true <-> a = b.
Proof.
  destruct a as [ka va], b as [kb vb]; unfold KeyVal_eqb; simpl.
  rewrite andb_true_iff, !str_eqb_eq.
  split; [intros [-> ->]; reflexivity | intros H; inversion H; auto].
Qed.

Lemma Query_eqb_eq (a b : Query) : Query_eqb a b = true <-> a = b.
Proof.
  revert b; induction a as [|x a IH]; intros [|y b]; simpl;
    try (split; [discriminate | congruence]); try tauto.
  rewrite andb_true_iff, KeyVal_eqb_eq, IH.
  split; [intros [-> ->]; reflexivity | intros H; inversion H; auto].
Qed.

(** C9: a [KeyVal] built from a key alone equals, by [operator==] and by
    [val()], the one built from the key and the empty string: the value has
    no marker for absent. *)
Theorem KeyVal_key_only_is_empty_val (k : str) :
  KeyVal_eqb (KeyVal_key_only k) (KeyVal_key_val k []) = true
  /\ val (KeyVal_key_only k) = val (KeyVal_key_val k [])
  /\ val (KeyVal_key_only k) = [].
Proof.
  split; [|split; reflexivity].
  unfold KeyVal_eqb; simpl. rewrite str_eqb_refl. reflexivity.
Qed.

(** ** The cache engine *)

Section EngineFacts.

Variable parser : str -> res Fields.
Variable builder : Fields -> res str.

Lemma with_built_same (u : Url) : with_built (m_built u) u = u.
Proof. destruct u; reflexivity. Qed.

Lemma with_parse_same (u : Url) : with_parse (m_parse u) u = u.
Proof. destruct u; reflexivity. Qed.

(** The lazy parse touches neither the raw string nor its flag, and leaves
    the fields fresh. *)
Lemma parse_url_ok (u u' : Url) :
  parse_url parser u = (Ok tt, u') ->
  m_url u' = m_url u /\ m_built u' = m_built u /\ m_parse u' = true.
Proof.
  unfold parse_url. destruct (m_parse u) eqn:E.
  - intros H; inversion H; subst; auto.
  - destruct (parser (m_url u)); intros H; inversion H; subst; simpl; auto.
Qed.

Lemma parse_url_fresh (u : Url) :
  m_parse u = true -> parse_url parser u = (Ok tt, u).
Proof. intros H; unfold parse_url; rewrite H; reflexivity. Qed.

Lemma parse_url_idem (u u' : Url) :
  parse_url parser u = (Ok tt, u') -> parse_url parser u' = (Ok tt, u').
Proof.
  intros H. apply parse_url_fresh. apply (parse_url_ok _ _ H).
Qed.

Lemma parse_url_result (u u' : Url) :
  parse_url parser u = (Ok tt, u') ->
  u' = (if m_parse u then u
        else with_parse true (with_fields (fields_of u') u)).
Proof.
  unfold parse_url. destruct (m_parse u).
  - intros H; inversion H; reflexivity.
  - destruct (parser (m_url u)) as [f|e]; intros H; inversion H.
    destruct f; reflexivity.
Qed.

Lemma parse_url_throw (u u' : Url) (e : exn) :
  parse_url parser u = (Throw e, u') -> u' = u.
Proof.
  unfold parse_url. destruct (m_parse u); [discriminate|].
  destruct (parser (m_url u)); intros H; inversion H; reflexivity.
Qed.

(** What the lazy parse changes cannot be observed. *)
Lemma parse_url_visible (u u' : Url) :
  parse_url parser u = (Ok tt, u') ->
  visible parser builder u' = visible parser builder u.
Proof.
  intros H. pose proof (parse_url_ok _ _ H) as (Hu & Hb & Hp).
  pose proof (parse_url_idem _ _ H) as Hi.
  unfold visible, toString, getter, build_url, bind, get, ret.
  cbv beta. rewrite Hb.
  destruct (m_built u) eqn:Eb; simpl; rewrite ?Eb, ?Hb, ?H, ?Hi, ?Hu;
    reflexivity.
Qed.

(** Every member function of the header keeps I1. *)
Lemma parse_url_I1 (u : Url) :
  I1 u = true -> I1 (snd (parse_url parser u)) = true.
Proof.
  intros HI. unfold parse_url.
  destruct (m_parse u); [exact HI|].
  destruct (parser (m_url u)); [reflexivity | exact HI].
Qed.

Lemma parse_I1 (s : str) (u : Url) : I1 (snd (parse s u)) = true.
Proof. reflexivity. Qed.

Lemma Url_default_I1 : I1 Url_default = true.
Proof. reflexivity. Qed.

Lemma toString_I1 (u : Url) :
  I1 u = true -> I1 (snd (toString parser builder u)) = true.
Proof.
  unfold toString, build_url, bind, get, ret, modify, throw, I1.
  destruct (m_built u) eqn:Eb; simpl.
  - rewrite Eb, orb_true_r; auto.
  - rewrite Eb. rewrite orb_false_r. intros Hp.
    rewrite (parse_url_fresh _ Hp).
    destruct (builder (fields_of u)); simpl; rewrite ?Hp; auto.
Qed.

Lemma after_parse_url_I1 {A} (k : M A) (u : Url) :
  (forall v, m_parse v = true -> I1 (snd (k v)) = true) ->
  I1 u = true ->
  I1 (snd ((parse_url parser ;;; k) u)) = true.
Proof.
  intros Hk HI. unfold bind.
  destruct (parse_url parser u) as [[[]|e] u'] eqn:E.
  - apply Hk. apply (parse_url_ok _ _ E).
  - simpl. rewrite (parse_url_throw _ _ _ E). exact HI.
Qed.

Lemma getter_I1 {A} (field : Url -> A) (u : Url) :
  I1 u = true -> I1 (snd (getter parser field u)) = true.
Proof.
  intros HI. apply after_parse_url_I1; auto. intros v Hv.
  unfold bind, get, ret, I1; simpl. rewrite Hv. reflexivity.
Qed.

Lemma set_port_I1 (s : str) (u : Url) :
  I1 u = true -> I1 (snd (set_port parser s u)) = true.
Proof.
  intros HI. unfold set_port. destruct (is_port s); [|exact HI].
  apply after_parse_url_I1; auto. intros v Hv.
  unfold modify, I1; simpl. rewrite Hv. reflexivity.
Qed.

Lemma query_ops_I1 (u : Url) (i : nat) (q : Query) (kv : KeyVal) :
  I1 u = true ->
  I1 (snd (query parser u)) = true
  /\ I1 (snd (query_at parser i u)) = true
  /\ I1 (snd (set_query parser u)) = true
  /\ I1 (snd (set_query_at parser i u)) = true
  /\ I1 (snd (set_query_all parser q u)) = true
  /\ I1 (snd (add_query parser kv u)) = true.
Proof.
  intros HI. repeat split; apply after_parse_url_I1; auto; intros v Hv;
    unfold bind, get, ret, modify, throw, I1; simpl; rewrite ?Hv; auto.
  - destruct (nth_error (m_query v) i); simpl; rewrite Hv; auto.
  - destruct (nth_error (m_query v) i); simpl; rewrite Hv; auto.
  - destruct (Query_eqb q (m_query v)); simpl; rewrite Hv; auto.
Qed.

End EngineFacts.

(** C1: the string constructor initialises both [m_parse] and [m_built] to
    false, so the object it makes violates I1, whatever the string; the
    sibling [parse] sets [m_built] and keeps the invariant. *)
Theorem Url_of_string_breaks_I1 (s : str) :
  m_parse (Url_of_string s) = false
  /\ m_built (Url_of_string s) = false
  /\ I1 (Url_of_string s) = false
  /\ I1 (snd (parse s Url_default)) = true.
Proof. repeat split. Qed.

(** [parse], and so assignment from a string, adopts the string: the raw
    form is fresh, the fields are stale, [toString] hands the string back
    without a call of the builder, and the fields read afterwards are those
    of the new string, whatever the object held before. *)
Lemma parse_adopts (parser : str -> res Fields) (builder : Fields -> res str)
    (s : str) (u : Url) :
  let u1 := snd (parse s u) in
  m_built u1 = true /\ m_parse u1 = false /\ m_url u1 = s
  /\ toString parser builder u1 = (Ok s, u1)
  /\ fst (getter parser fields_of u1) = parser s.
Proof.
  simpl. repeat split.
  unfold getter, parse_url, bind, get, ret; simpl.
  destruct (parser s) as [f|e]; simpl; [destruct f|]; reflexivity.
Qed.

(** C2: on an object made by the string constructor [m_built] is false, so
    [toString] calls the builder and returns what the builder makes of the
    parsed fields, not the string: for ["a%41"] it returns ["aA"], where the
    same string adopted by [parse] comes back unchanged. *)
Theorem Url_of_string_toString_rebuilds (parser : str -> res Fields)
    (builder : Fields -> res str) (s : str) :
  m_built (Url_of_string s) = false
  /\ fst (toString parser builder (Url_of_string s)) = rbind (parser s) builder
  /\ fst (url_toString (Url_of_string (lit "a%41"))) = Ok (lit "aA")
  /\ fst (url_toString (snd (parse (lit "a%41") Url_default)))
     = Ok (lit "a%41").
Proof.
  split; [reflexivity|]. split; [|split; reflexivity].
  unfold toString, build_url, parse_url, bind, get, ret, modify, throw; simpl.
  destruct (parser s) as [f|e]; simpl; [|reflexivity].
  replace (fields_of _) with f by (destruct f; reflexivity).
  destruct (builder f); reflexivity.
Qed.

(** C4, counterexample: [set_query(0)] on an object with a fresh raw form
    returns the entry and leaves the raw form stale although the entry is
    unchanged, also after the same entry is stored back through the
    reference. *)
Lemma set_query_at_stale_when_unchanged :
  let r := set_query_at parse_fields 0 url_a1 in
  let u2 := write_back 0 (KeyVal_key_val (lit "a") (lit "1")) (snd r) in
  m_built url_a1 = true
  /\ fst r = Ok (KeyVal_key_val (lit "a") (lit "1"))
  /\ nth_error (m_query (snd r)) 0 = nth_error (m_query url_a1) 0
  /\ m_built (snd r) = false
  /\ nth_error (m_query u2) 0 = nth_error (m_query url_a1) 0
  /\ m_built u2 = false.
Proof. vm_compute. repeat split. Qed.

(** C4, amended: [set_query(i)] marks the raw form stale whenever [i] is in
    range, before the caller writes anything through the reference; the
    fields are otherwise as the lazy parse left them. *)
Theorem set_query_at_in_range (parser : str -> res Fields) (u u' : Url)
    (i : nat) (kv : KeyVal) :
  parse_url parser u = (Ok tt, u') ->
  nth_error (m_query u') i = Some kv ->
  set_query_at parser i u = (Ok kv, with_built false u')
  /\ m_built (snd (set_query_at parser i u)) = false.
Proof.
  intros Hp Hn. unfold set_query_at, bind, get, ret, modify.
  rewrite Hp, Hn. split; reflexivity.
Qed.

Lemma set_query_at_in_range_witness :
  (parse_url parse_fields url_a1 = (Ok tt, url_a1)
   /\ nth_error (m_query url_a1) 0 = Some (KeyVal_key_val (lit "a") (lit "1")))
  /\ set_query_at parse_fields 0 url_a1
     = (Ok (KeyVal_key_val (lit "a") (lit "1")), with_built false url_a1)
  /\ m_built (snd (set_query_at parse_fields 0 url_a1)) = false.
Proof.
  split; [split; reflexivity|].
  apply (set_query_at_in_range parse_fields url_a1 url_a1 0); reflexivity.
Defined.

(** C5, counterexample: after the string ["?a=1"] is assigned, the current
    query sequence is [a=1]; replacing it by an equal sequence turns
    [m_parse] from false to true. *)
Lemma set_query_all_equal_sets_m_parse :
  let u0 := snd (parse (lit "?a=1") Url_default) in
  let q := [KeyVal_key_val (lit "a") (lit "1")] in
  let u1 := snd (set_query_all parse_fields q u0) in
  fst (query parse_fields u0) = Ok q
  /\ m_parse u0 = false
  /\ m_parse u1 = true
  /\ m_parse u1 <> m_parse u0.
Proof. vm_compute. repeat split. discriminate. Qed.

(** C5, amended: when [q] equals the current (parsed) query sequence,
    [set_query(q)] leaves the query, the raw string and [m_built] unchanged
    and [m_parse] set; its whole effect is that of the lazy parse, so an
    object with fresh fields is left as it was, and one with stale fields
    differs from its old self in the parsed fields and [m_parse] only. *)
Theorem set_query_all_equal (parser : str -> res Fields) (u u' : Url)
    (q : Query) :
  parse_url parser u = (Ok tt, u') ->
  Query_eqb q (m_query u') = true ->
  set_query_all parser q u = (Ok tt, u')
  /\ m_query u' = q
  /\ m_url u' = m_url u
  /\ m_built u' = m_built u
  /\ m_parse u' = true
  /\ u' = (if m_parse u then u
           else with_parse true (with_fields (fields_of u') u)).
Proof.
  intros Hp Hq. pose proof (parse_url_ok _ _ _ Hp) as (Hu & Hb & Hf).
  unfold set_query_all, bind, get, ret. rewrite Hp, Hq. simpl.
  repeat split; auto.
  - symmetry. apply Query_eqb_eq. exact Hq.
  - apply parse_url_result with (parser := parser). exact Hp.
Qed.

Lemma set_query_all_equal_witness :
  (parse_url parse_fields url_a1 = (Ok tt, url_a1)
   /\ Query_eqb [KeyVal_key_val (lit "a") (lit "1")] (m_query url_a1) = true)
  /\ set_query_all parse_fields [KeyVal_key_val (lit "a") (lit "1")] url_a1
     = (Ok tt, url_a1).
Proof.
  split; [split; reflexivity|].
  apply (set_query_all_equal parse_fields url_a1 url_a1); reflexivity.
Defined.

(** [set_query(q)] marks the raw form stale only when [q] differs. *)
Lemma set_query_all_stale_only_if_differs (parser : str -> res Fields)
    (u u' : Url) (q : Query) :
  parse_url parser u = (Ok tt, u') ->
  m_built u = true ->
  m_built (snd (set_query_all parser q u)) = false ->
  q <> m_query u'.
Proof.
  intros Hp Hb Hs Heq. apply Query_eqb_eq in Heq.
  pose proof (parse_url_ok _ _ _ Hp) as (_ & Hb' & _).
  unfold set_query_all, bind, get, ret in Hs. rewrite Hp, Heq in Hs.
  simpl in Hs. congruence.
Qed.

(** C6: with [n] the length of the parsed query sequence, [query(i)] and
    [set_query(i)] throw [std::out_of_range] for every [i >= n], leaving
    the object as the lazy parse left it: same raw string, same [m_built],
    same observable state; for every [i < n] both return the entry at
    [i]. *)
Theorem query_index_bounds (parser : str -> res Fields)
    (builder : Fields -> res str) (u u' : Url) (i : nat) :
  parse_url parser u = (Ok tt, u') ->
  (List.length (m_query u') <= i ->
   query_at parser i u = (Throw out_of_range, u')
   /\ set_query_at parser i u = (Throw out_of_range, u')
   /\ m_url u' = m_url u
   /\ m_built u' = m_built u
   /\ visible parser builder u' = visible parser builder u)
  /\ (i < List.length (m_query u') ->
      exists kv, nth_error (m_query u') i = Some kv
                 /\ query_at parser i u = (Ok kv, u')
                 /\ fst (set_query_at parser i u) = Ok kv).
Proof.
  intros Hp. pose proof (parse_url_ok _ _ _ Hp) as (Hu & Hb & _).
  split.
  - intros Hle. apply nth_error_None in Hle.
    unfold query_at, set_query_at, bind, get, throw. rewrite Hp, Hle.
    repeat split; auto. apply parse_url_visible; exact Hp.
  - intros Hlt. apply nth_error_Some in Hlt.
    destruct (nth_error (m_query u') i) as [kv|] eqn:E; [|congruence].
    exists kv. unfold query_at, set_query_at, bind, get, ret, modify.
    rewrite Hp, E. repeat split.
Qed.

Lemma query_index_bounds_witness :
  parse_url parse_fields url_a1 = (Ok tt, url_a1)
  /\ query_at parse_fields 1 url_a1 = (Throw out_of_range, url_a1)
  /\ set_query_at parse_fields 1 url_a1 = (Throw out_of_range, url_a1)
  /\ exists kv, nth_error (m_query url_a1) 0 = Some kv
                /\ query_at parse_fields 0 url_a1 = (Ok kv, url_a1)
                /\ fst (set_query_at parse_fields 0 url_a1) = Ok kv.
Proof.
  split; [reflexivity|].
  destruct (query_index_bounds parse_fields build_fields url_a1 url_a1 1
              eq_refl) as [Hout _].
  destruct (query_index_bounds parse_fields build_fields url_a1 url_a1 0
              eq_refl) as [_ Hin].
  destruct Hout as (Hq & Hs & _); [vm_compute; lia|].
  split; [exact Hq|]. split; [exact Hs|].
  apply Hin. vm_compute. lia.
Defined.

(** ** Decimal numbers *)

Lemma num_value_snoc (s : str) (c : ascii) :
  num_value (s ++ [c]) = (10 * num_value s + digit_val c)%N.
Proof. unfold num_value. rewrite fold_left_app. reflexivity. Qed.

Lemma to_string_aux_acc (fuel : nat) (n : N) (acc : str) :
  to_string_aux fuel n acc = to_string_aux fuel n [] ++ acc.
Proof.
  revert n acc. induction fuel as [|f IH]; intros n acc; simpl; [reflexivity|].
  destruct (n / 10 =? 0)%N; [reflexivity|].
  rewrite IH. rewrite (IH _ [_]). rewrite <- app_assoc. reflexivity.
Qed.

Lemma digit_char_val (d : N) : (d < 10)%N -> digit_val (digit_char d) = d.
Proof.
  intros H. unfold digit_val, digit_char.
  rewrite N_ascii_embedding by lia. lia.
Qed.

Lemma digit_char_is_digit (d : N) :
  (d < 10)%N -> is_digit (digit_char d) = true.
Proof.
  intros H. unfold is_digit, in_range, digit_char.
  rewrite N_ascii_embedding by lia.
  change (N_of_ascii "0") with 48%N. change (N_of_ascii "9") with 57%N.
  apply andb_true_iff; split; apply N.leb_le; lia.
Qed.

Lemma tenth_below (f : nat) (n : N) :
  (n < 2 ^ N.of_nat (S f))%N -> (n / 10 < 2 ^ N.of_nat f)%N.
Proof.
  intros H. rewrite Nat2N.inj_succ, N.pow_succ_r' in H.
  apply N.Div0.div_lt_upper_bound. lia.
Qed.

Lemma to_string_aux_value (fuel : nat) (n : N) :
  (n < 2 ^ N.of_nat fuel)%N -> num_value (to_string_aux fuel n []) = n.
Proof.
  revert n. induction fuel as [|f IH]; intros n H.
  - simpl in *. unfold num_value; simpl. lia.
  - simpl to_string_aux.
    pose proof (N.mod_upper_bound n 10 ltac:(lia)) as Hm.
    pose proof (N.div_mod n 10 ltac:(lia)) as Hd.
    destruct (n / 10 =? 0)%N eqn:E.
    + apply N.eqb_eq in E. unfold num_value; simpl.
      rewrite digit_char_val by exact Hm. lia.
    + rewrite to_string_aux_acc, num_value_snoc.
      rewrite IH by (apply tenth_below; exact H).
      rewrite digit_char_val by exact Hm. lia.
Qed.

Lemma to_string_aux_digits (fuel : nat) (n : N) :
  forallb is_digit (to_string_aux fuel n []) = true.
Proof.
  revert n. induction fuel as [|f IH]; intros n; [reflexivity|].
  simpl to_string_aux.
  pose proof (N.mod_upper_bound n 10 ltac:(lia)) as Hm.
  destruct (n / 10 =? 0)%N.
  - simpl. rewrite digit_char_is_digit by exact Hm. reflexivity.
  - rewrite to_string_aux_acc, forallb_app, IH. simpl.
    rewrite digit_char_is_digit by exact Hm. reflexivity.
Qed.

(** [std::to_string] writes decimal digits only, and they denote the
    number. *)
Lemma to_string_value (n : N) : num_value (to_string n) = n.
Proof.
  unfold to_string. apply to_string_aux_value.
  rewrite Nat2N.inj_succ, N.pow_succ_r', N2Nat.id.
  pose proof (N.size_gt n). lia.
Qed.

Lemma to_string_digits (n : N) : forallb is_digit (to_string n) = true.
Proof. apply to_string_aux_digits. Qed.

Lemma to_uint16_range (z : Z) : (to_uint16 z <= 65535)%N.
Proof.
  unfold to_uint16. pose proof (Z.mod_pos_bound z 65536 ltac:(lia)). lia.
Qed.

Lemma to_string_aux_head (fuel : nat) (n : N) (acc : str) :
  (n < 2 ^ N.of_nat fuel)%N -> n <> 0%N ->
  exists d rest,
    to_string_aux fuel n acc = digit_char d :: rest /\ (0 < d < 10)%N.
Proof.
  revert n acc. induction fuel as [|f IH]; intros n acc Hn H0.
  - simpl in Hn. lia.
  - simpl to_string_aux.
    pose proof (N.mod_upper_bound n 10 ltac:(lia)) as Hm.
    pose proof (N.div_mod n 10 ltac:(lia)) as Hd.
    destruct (n / 10 =? 0)%N eqn:E.
    + apply N.eqb_eq in E. exists (n mod 10)%N, acc.
      split; [reflexivity | lia].
    + apply N.eqb_neq in E. apply IH; [apply tenth_below; exact Hn | exact E].
Qed.

Lemma to_string_no_leading_zero (n : N) :
  starts_with "0" (to_string n) = true -> n = 0%N.
Proof.
  intros H. destruct (N.eq_dec n 0) as [|Hn]; [assumption|]. exfalso.
  assert (Hlt : (n < 2 ^ N.of_nat (S (N.to_nat (N.size n))))%N).
  { rewrite Nat2N.inj_succ, N.pow_succ_r', N2Nat.id.
    pose proof (N.size_gt n). lia. }
  destruct (to_string_aux_head _ n [] Hlt Hn) as (d & rest & E & Hd).
  unfold to_string in H. rewrite E in H. simpl in H.
  apply Ascii.eqb_eq in H.
  pose proof (digit_char_val d ltac:(lia)) as Hv.
  rewrite H in Hv. vm_compute in Hv. lia.
Qed.

Lemma to_string_not_nil (n : N) : to_string n <> [].
Proof.
  unfold to_string. simpl to_string_aux.
  destruct (n / 10 =? 0)%N; [discriminate|].
  rewrite to_string_aux_acc. intros H. apply app_eq_nil in H as [_ H].
  discriminate.
Qed.

Lemma size_bound (n : N) : (n < 2 ^ N.of_nat (S (N.to_nat (N.size n))))%N.
Proof.
  rewrite Nat2N.inj_succ, N.pow_succ_r', N2Nat.id.
  pose proof (N.size_gt n). lia.
Qed.

(** The loop of [to_string] does not depend on its bound. *)
Lemma to_string_aux_fuel (f1 f2 : nat) (n : N) :
  n <> 0%N -> (n < 2 ^ N.of_nat f1)%N -> (n < 2 ^ N.of_nat f2)%N ->
  to_string_aux f1 n [] = to_string_aux f2 n [].
Proof.
  revert f2 n. induction f1 as [|f1 IH]; intros f2 n Hn H1 H2.
  - simpl in H1. lia.
  - destruct f2 as [|f2]; [simpl in H2; lia|].
    simpl to_string_aux. destruct (n / 10 =? 0)%N eqn:E; [reflexivity|].
    apply N.eqb_neq in E.
    rewrite to_string_aux_acc, (to_string_aux_acc f2).
    rewrite (IH f2 (n / 10)%N E (tenth_below _ _ H1) (tenth_below _ _ H2)).
    reflexivity.
Qed.

Lemma to_string_digit (d : N) : (d < 10)%N -> to_string d = [digit_char d].
Proof.
  intros H. unfold to_string. simpl to_string_aux.
  rewrite N.div_small, N.mod_small by exact H. reflexivity.
Qed.

Lemma to_string_step (m d : N) :
  m <> 0%N -> (d < 10)%N ->
  to_string (10 * m + d) = to_string m ++ [digit_char d].
Proof.
  intros Hm Hd. set (n := (10 * m + d)%N).
  assert (Hq : (n / 10 = m)%N)
    by (unfold n; symmetry; apply (N.div_unique _ 10 m d);
        [exact Hd | reflexivity]).
  assert (Hr : (n mod 10 = d)%N)
    by (unfold n; symmetry; apply (N.mod_unique _ 10 m d);
        [exact Hd | reflexivity]).
  unfold to_string at 1. simpl to_string_aux. rewrite Hq, Hr.
  destruct (m =? 0)%N eqn:E; [apply N.eqb_eq in E; contradiction|].
  rewrite to_string_aux_acc. f_equal. unfold to_string.
  apply to_string_aux_fuel; [exact Hm | | apply size_bound].
  rewrite <- Hq. apply tenth_below. apply size_bound.
Qed.

Lemma digit_val_char (c : ascii) :
  is_digit c = true -> digit_char (digit_val c) = c /\ (digit_val c < 10)%N.
Proof.
  destruct c as [[] [] [] [] [] [] [] []]; vm_compute; intros H;
    try discriminate; auto.
Qed.

(** A string of digits without a leading zero is the decimal form of its
    value. *)
Lemma to_string_num_value (s : str) :
  s <> [] -> forallb is_digit s = true ->
  negb (starts_with "0" s) || is_nil (tl s) = true ->
  to_string (num_value s) = s.
Proof.
  induction s as [|c s' IH] using rev_ind; [congruence|].
  intros _ Hd Hz. rewrite forallb_app in Hd.
  apply andb_true_iff in Hd as [Hd Hc]. simpl in Hc.
  rewrite andb_true_r in Hc. destruct (digit_val_char c Hc) as [Hcc Hlt].
  rewrite num_value_snoc. destruct s' as [|x s''].
  - simpl. rewrite to_string_digit by exact Hlt. rewrite Hcc. reflexivity.
  - assert (Hx : starts_with "0" (x :: s'') = false).
    { simpl app in Hz. simpl starts_with in *. simpl tl in Hz.
      destruct (Ascii.eqb x "0"); [|reflexivity].
      simpl in Hz. destruct s''; discriminate. }
    assert (IH' : to_string (num_value (x :: s'')) = x :: s'').
    { apply IH; [discriminate | exact Hd |]. rewrite Hx. reflexivity. }
    assert (Hm : num_value (x :: s'') <> 0%N).
    { intros E. rewrite E in IH'. vm_compute in IH'.
      inversion IH'; subst. discriminate. }
    rewrite (to_string_step _ _ Hm Hlt), IH', Hcc. reflexivity.
Qed.

(** [std::to_string] writes the decimal digit string of its argument, and
    no other string is one. *)
Lemma to_string_decimal (n : N) (s : str) :
  is_decimal_of n s = true <-> s = to_string n.
Proof.
  unfold is_decimal_of. split.
  - intros H. apply andb_true_iff in H as [H Hv].
    apply andb_true_iff in H as [H Hz]. apply andb_true_iff in H as [Hn Hd].
    apply N.eqb_eq in Hv. rewrite <- Hv. symmetry.
    apply to_string_num_value; [|exact Hd|exact Hz].
    destruct s; discriminate.
  - intros ->. rewrite to_string_digits, to_string_value, N.eqb_refl.
    rewrite !andb_true_r. apply andb_true_iff. split.
    + pose proof (to_string_not_nil n) as H.
      destruct (to_string n); [congruence | reflexivity].
    + destruct (starts_with "0" (to_string n)) eqn:E; [|reflexivity].
      apply to_string_no_leading_zero in E. subst n. reflexivity.
Qed.

(** C10: for every 16-bit unsigned [n], the numeric port setter is the
    string setter on the decimal digit string of [n]: the string
    [std::to_string] makes of [n] is a decimal digit string with the value
    [n], and the only one.  That string always passes the port check, so
    the call goes straight to the lazy parse and the write of the port, and
    whatever it throws the lazy parse has thrown: never the port error. *)
Theorem set_port_num_valid (parser : str -> res Fields) (n : N) (u : Url) :
  (n <= 65535)%N ->
  set_port_num parser (Z.of_N n) u = set_port parser (to_string n) u
  /\ is_decimal_of n (to_string n) = true
  /\ (forall s, is_decimal_of n s = true -> s = to_string n)
  /\ is_port (to_string n) = true
  /\ set_port_num parser (Z.of_N n) u
     = (parse_url parser ;;;
        modify (fun v => with_built false (with_port (to_string n) v))) u
  /\ (forall e, fst (set_port_num parser (Z.of_N n) u) = Throw e ->
                fst (parse_url parser u) = Throw e).
Proof.
  intros Hn.
  assert (Hc : to_uint16 (Z.of_N n) = n).
  { unfold to_uint16. rewrite Z.mod_small by lia. apply N2Z.id. }
  assert (Hp : is_port (to_string n) = true).
  { unfold is_port. rewrite to_string_digits, to_string_value.
    apply N.leb_le. exact Hn. }
  assert (Hs : set_port_num parser (Z.of_N n) u
               = (parse_url parser ;;;
                  modify (fun v => with_built false
                                     (with_port (to_string n) v))) u).
  { unfold set_port_num, set_port. rewrite Hc, Hp. reflexivity. }
  split; [unfold set_port_num; rewrite Hc; reflexivity|].
  split; [apply to_string_decimal; reflexivity|].
  split; [intros s H; apply to_string_decimal; exact H|].
  split; [exact Hp|]. split; [exact Hs|].
  intros e. rewrite Hs. unfold bind, modify.
  destruct (parse_url parser u) as [[[]|e'] u']; simpl; [discriminate|auto].
Qed.

Lemma set_port_num_valid_witness :
  (8080 <= 65535)%N
  /\ to_string 8080 = lit "8080"
  /\ set_port_num parse_fields 8080 Url_default
     = set_port parse_fields (lit "8080") Url_default
  /\ m_port (snd (set_port_num parse_fields 8080 Url_default)) = lit "8080".
Proof.
  split; [lia|]. split; [reflexivity|].
  destruct (set_port_num_valid parse_fields 8080 Url_default ltac:(lia))
    as (H & _).
  split; [exact H|]. change (Z.of_N 8080) with 8080%Z in H.
  rewrite H. reflexivity.
Defined.

(** ** Percent-encoding *)

Ltac ascii_cases c := destruct c as [[] [] [] [] [] [] [] []].

Lemma hex_char_val (c : ascii) :
  hex_val (hex_char (N_of_ascii c / 16)) = Some (N_of_ascii c / 16)%N
  /\ hex_val (hex_char (N_of_ascii c mod 16)) = Some (N_of_ascii c mod 16)%N.
Proof. ascii_cases c; vm_compute; split; reflexivity. Qed.

Lemma hex_char_is_hex (c : ascii) :
  is_hex (hex_char (N_of_ascii c / 16)) = true
  /\ is_hex (hex_char (N_of_ascii c mod 16)) = true.
Proof. ascii_cases c; vm_compute; split; reflexivity. Qed.

Lemma byte_of_nibbles (c : ascii) :
  ascii_of_N (16 * (N_of_ascii c / 16) + N_of_ascii c mod 16) = c.
Proof.
  rewrite <- N.div_mod by lia. apply ascii_N_embedding.
Qed.

Lemma decode_escape (h l : ascii) (s : str) :
  decode ("%" :: h :: l :: s)
  = match hex_val h, hex_val l with
    | Some a, Some b =>
        match decode s with
        | Ok r => Ok (ascii_of_N (16 * a + b) :: r)
        | Throw e => Throw e
        end
    | _, _ => Throw parse_error
    end.
Proof. reflexivity. Qed.

Lemma decode_plain (c : ascii) (s : str) :
  Ascii.eqb c "%" = false ->
  decode (c :: s) = match decode s with
                    | Ok r => Ok (c :: r)
                    | Throw e => Throw e
                    end.
Proof. intros H. simpl. rewrite H. reflexivity. Qed.

Lemma encode_cons (allow : ascii -> bool) (c : ascii) (s : str) :
  encode allow (c :: s) = encode_char allow c ++ encode allow s.
Proof. reflexivity. Qed.

Lemma encode_app (allow : ascii -> bool) (a b : str) :
  encode allow (a ++ b) = encode allow a ++ encode allow b.
Proof. unfold encode. apply flat_map_app. Qed.

(** Decoding undoes encoding, for every allow-list that escapes [%]. *)
Lemma decode_encode (allow : ascii -> bool) (s : str) :
  allow "%" = false -> decode (encode allow s) = Ok s.
Proof.
  intros Hpc. induction s as [|c s IH]; [reflexivity|].
  rewrite encode_cons. unfold encode_char.
  destruct (allow c) eqn:E.
  - simpl app. rewrite decode_plain, IH; [reflexivity|].
    destruct (Ascii.eqb c "%") eqn:E'; [|reflexivity].
    apply Ascii.eqb_eq in E'. congruence.
  - simpl app. rewrite decode_escape.
    destruct (hex_char_val c) as [-> ->].
    rewrite IH, byte_of_nibbles. reflexivity.
Qed.


(** ** Text free of stop characters *)

Lemma free_app (stop : ascii -> bool) (a b : str) :
  free stop (a ++ b) = free stop a && free stop b.
Proof. apply forallb_app. Qed.

Lemma free_cons (stop : ascii -> bool) (c : ascii) (s : str) :
  free stop (c :: s) = negb (stop c) && free stop s.
Proof. reflexivity. Qed.

(** The encoder writes allowed characters of its input, [%] and hex digits
    only. *)
Lemma encode_free (stop allow : ascii -> bool) (s : str) :
  stop "%" = false ->
  (forall c, is_hex c = true -> stop c = false) ->
  (forall c, In c s -> allow c = true -> stop c = false) ->
  free stop (encode allow s) = true.
Proof.
  intros Hpc Hhex. induction s as [|c s IH]; intros Hs; [reflexivity|].
  rewrite encode_cons, free_app, IH by (intros; apply Hs; simpl; auto).
  rewrite andb_true_r. unfold encode_char.
  destruct (allow c) eqn:E.
  - simpl. rewrite (Hs c) by (simpl; auto). reflexivity.
  - destruct (hex_char_is_hex c) as [H1 H2].
    unfold free. simpl. rewrite Hpc, (Hhex _ H1), (Hhex _ H2). reflexivity.
Qed.

Lemma encode_free_disallowed (stop allow : ascii -> bool) (s : str) :
  stop "%" = false ->
  (forall c, is_hex c = true -> stop c = false) ->
  (forall c, allow c = true -> stop c = false) ->
  free stop (encode allow s) = true.
Proof. intros H1 H2 H3. apply encode_free; auto. Qed.

Lemma encode_free_input (stop allow : ascii -> bool) (s : str) :
  stop "%" = false ->
  (forall c, is_hex c = true -> stop c = false) ->
  free stop s = true ->
  free stop (encode allow s) = true.
Proof.
  intros H1 H2 H3. apply encode_free; auto.
  intros c Hin _. unfold free in H3. rewrite forallb_forall in H3.
  apply negb_true_iff. apply H3. exact Hin.
Qed.

(** ** Splitting text that was put together *)

Lemma span_until_free (stop : ascii -> bool) (a b : str) :
  free stop a = true -> starts_stop stop b = true ->
  span_until stop (a ++ b) = (a, b).
Proof.
  intros Ha Hb. induction a as [|x a IH]; simpl.
  - destruct b as [|c b]; [reflexivity|]. simpl in *. rewrite Hb. reflexivity.
  - rewrite free_cons in Ha. apply andb_true_iff in Ha as [Hx Ha].
    apply negb_true_iff in Hx. rewrite Hx, (IH Ha). reflexivity.
Qed.

Lemma split_first_none (c : ascii) (s : str) :
  free (is_char c) s = true -> split_first c s = None.
Proof.
  induction s as [|x s IH]; [reflexivity|]. rewrite free_cons.
  intros H. apply andb_true_iff in H as [Hx Hs].
  apply negb_true_iff in Hx. unfold is_char in Hx. simpl.
  rewrite Hx, (IH Hs). reflexivity.
Qed.

Lemma split_first_free (c : ascii) (a b : str) :
  free (is_char c) a = true -> split_first c (a ++ c :: b) = Some (a, b).
Proof.
  induction a as [|x a IH].
  - intros _. simpl. rewrite Ascii.eqb_refl. reflexivity.
  - rewrite free_cons. intros H. apply andb_true_iff in H as [Hx Ha].
    apply negb_true_iff in Hx. unfold is_char in Hx. simpl.
    rewrite Hx, (IH Ha). reflexivity.
Qed.

Lemma split_last_none (c : ascii) (s : str) :
  free (is_char c) s = true -> split_last c s = None.
Proof.
  induction s as [|x s IH]; [reflexivity|]. rewrite free_cons.
  intros H. apply andb_true_iff in H as [Hx Hs].
  apply negb_true_iff in Hx. unfold is_char in Hx. simpl.
  rewrite (IH Hs), Hx. reflexivity.
Qed.

Lemma split_last_free (c : ascii) (a b : str) :
  free (is_char c) b = true -> split_last c (a ++ c :: b) = Some (a, b).
Proof.
  intros Hb. induction a as [|x a IH]; simpl.
  - rewrite (split_last_none c b Hb), Ascii.eqb_refl. reflexivity.
  - rewrite IH. reflexivity.
Qed.

Lemma split_on_free (c : ascii) (t : str) :
  free (is_char c) t = true -> split_on c t = [t].
Proof.
  induction t as [|x t IH]; [reflexivity|]. rewrite free_cons.
  intros H. apply andb_true_iff in H as [Hx Ht].
  apply negb_true_iff in Hx. unfold is_char in Hx. simpl.
  rewrite Hx, (IH Ht). reflexivity.
Qed.

Lemma split_on_sep (c : ascii) (t r : str) :
  free (is_char c) t = true ->
  split_on c (t ++ c :: r) = t :: split_on c r.
Proof.
  induction t as [|x t IH].
  - intros _. simpl. rewrite Ascii.eqb_refl. reflexivity.
  - rewrite free_cons. intros H. apply andb_true_iff in H as [Hx Ht].
    apply negb_true_iff in Hx. unfold is_char in Hx. simpl.
    rewrite Hx, (IH Ht). reflexivity.
Qed.

Lemma forallb_cons {A} (f : A -> bool) (x : A) (l : list A) :
  forallb f (x :: l) = f x && forallb f l.
Proof. reflexivity. Qed.

(** Splitting undoes joining, whatever the number of tokens and however
    often one repeats. *)
Lemma split_on_join (c : ascii) (ts : list str) :
  ts <> [] ->
  forallb (free (is_char c)) ts = true ->
  split_on c (join c ts) = ts.
Proof.
  induction ts as [|t ts IH]; [congruence|]. intros _ H.
  rewrite forallb_cons in H. apply andb_true_iff in H as [Ht Hts].
  destruct ts as [|t' ts'].
  - simpl. apply split_on_free. exact Ht.
  - change (join c (t :: t' :: ts')) with (t ++ c :: join c (t' :: ts')).
    rewrite split_on_sep by exact Ht.
    rewrite IH by (auto; discriminate). reflexivity.
Qed.

Lemma free_join (stop : ascii -> bool) (c : ascii) (ts : list str) :
  stop c = false ->
  forallb (free stop) ts = true ->
  free stop (join c ts) = true.
Proof.
  intros Hc. induction ts as [|t ts IH]; [reflexivity|]. intros H.
  rewrite forallb_cons in H. apply andb_true_iff in H as [Ht Hts].
  destruct ts as [|t' ts']; [exact Ht|].
  change (join c (t :: t' :: ts')) with (t ++ c :: join c (t' :: ts')).
  rewrite free_app, free_cons, Ht, Hc, (IH Hts). reflexivity.
Qed.

(** The characters of a text whose tokens are all of one kind. *)
Lemma split_on_forall (P : ascii -> bool) (c : ascii) (s : str) :
  P c = true ->
  forallb (forallb P) (split_on c s) = true ->
  forallb P s = true.
Proof.
  intros Hc. induction s as [|x s IH]; [reflexivity|]. simpl.
  destruct (Ascii.eqb x c) eqn:E.
  - apply Ascii.eqb_eq in E. subst x. simpl. intros H.
    rewrite Hc, (IH H). reflexivity.
  - destruct (split_on c s) as [|t ts] eqn:Es; simpl.
    + rewrite !andb_true_r. intros H. rewrite H.
      destruct s; [reflexivity | simpl in Es].
      destruct (Ascii.eqb a c); [discriminate|].
      destruct (split_on c s); discriminate.
    + intros H. apply andb_true_iff in H as [H1 H2].
      apply andb_true_iff in H1 as [Hx Ht].
      rewrite Hx. apply IH. simpl. rewrite Ht, H2. reflexivity.
Qed.

(** ** The scheme *)

Lemma scheme_char_plain (c : ascii) :
  is_scheme_char c = true ->
  Ascii.eqb c ":" = false /\ authority_end c = false
  /\ allow_path c = true /\ Ascii.eqb c "%" = false.
Proof. ascii_cases c; vm_compute; intros H; auto; discriminate. Qed.

Lemma alpha_scheme_char (c : ascii) :
  is_alpha c = true -> is_scheme_char c = true.
Proof. unfold is_scheme_char. intros ->. reflexivity. Qed.

Lemma is_scheme_chars (s : str) :
  is_scheme s = true -> forallb is_scheme_char s = true.
Proof.
  destruct s as [|c s]; [discriminate|]. simpl.
  intros H. apply andb_true_iff in H as [Hc Hs].
  rewrite (alpha_scheme_char c Hc), Hs. reflexivity.
Qed.

Lemma scheme_end_found (a r : str) :
  forallb is_scheme_char a = true ->
  scheme_end (a ++ ":" :: r) = Some (a, r).
Proof.
  induction a as [|x a IH]; simpl; [reflexivity|].
  intros H. apply andb_true_iff in H as [Hx Ha].
  destruct (scheme_char_plain x Hx) as (H1 & H2 & _).
  rewrite H1, H2, (IH Ha). reflexivity.
Qed.

Lemma authority_end_not_colon (c : ascii) :
  authority_end c = true -> Ascii.eqb c ":" = false.
Proof. ascii_cases c; vm_compute; intros H; auto; discriminate. Qed.

Lemma scheme_end_none (a b : str) :
  free (is_char ":") a = true ->
  starts_stop authority_end b = true ->
  scheme_end (a ++ b) = None.
Proof.
  intros Ha Hb. induction a as [|x a IH]; simpl.
  - destruct b as [|c b]; [reflexivity|]. simpl in Hb. simpl.
    rewrite (authority_end_not_colon c Hb), Hb. reflexivity.
  - rewrite free_cons in Ha. apply andb_true_iff in Ha as [Hx Ha].
    apply negb_true_iff in Hx. unfold is_char in Hx. rewrite Hx.
    destruct (authority_end x); [reflexivity|].
    rewrite (IH Ha). reflexivity.
Qed.

Lemma scheme_end_colon (a r : str) :
  free (is_char ":") a = true ->
  scheme_end (a ++ ":" :: r) = None \/ scheme_end (a ++ ":" :: r) = Some (a, r).
Proof.
  induction a as [|x a IH]; [simpl; auto|].
  rewrite free_cons. intros H. apply andb_true_iff in H as [Hx Ha].
  apply negb_true_iff in Hx. unfold is_char in Hx. simpl. rewrite Hx.
  destruct (authority_end x); [auto|].
  destruct (IH Ha) as [-> | ->]; auto.
Qed.

(** ** Characters that delimit components *)

Lemma hex_plain (c : ascii) :
  is_hex c = true ->
  is_char "&" c = false /\ is_char "=" c = false /\ Ascii.eqb "#" c = false
  /\ path_end c = false /\ authority_end c = false /\ is_char "@" c = false
  /\ is_char ":" c = false /\ is_char "]" c = false /\ is_char "[" c = false
  /\ is_char "/" c = false.
Proof. ascii_cases c; vm_compute; intros H; repeat split; discriminate. Qed.

Lemma allow_query_plain (c : ascii) :
  allow_query c = true ->
  is_char "&" c = false /\ is_char "=" c = false /\ Ascii.eqb "#" c = false.
Proof. ascii_cases c; vm_compute; intros H; repeat split; discriminate. Qed.

Lemma allow_path_plain (c : ascii) :
  allow_path c = true -> path_end c = false.
Proof. ascii_cases c; vm_compute; intros H; auto; discriminate. Qed.

Lemma allow_user_plain (c : ascii) :
  allow_user c = true ->
  authority_end c = false /\ is_char "@" c = false /\ is_char "[" c = false.
Proof. ascii_cases c; vm_compute; intros H; repeat split; discriminate. Qed.

Ltac by_hex H := destruct (hex_plain _ H) as (? & ? & ? & ? & ? & ? & ? & ? & ? & ?); assumption.

(** ** The query *)

Lemma build_token_free (kv : KeyVal) :
  free (is_char "&") (build_token kv) = true
  /\ free (Ascii.eqb "#") (build_token kv) = true.
Proof.
  assert (Hk : forall s, free (is_char "&") (encode allow_query s) = true).
  { intros s. apply encode_free_disallowed; [reflexivity| |].
    - intros c H. by_hex H.
    - intros c H. apply (allow_query_plain c H). }
  assert (Hh : forall s, free (Ascii.eqb "#") (encode allow_query s) = true).
  { intros s. apply encode_free_disallowed; [reflexivity| |].
    - intros c H. by_hex H.
    - intros c H. apply (allow_query_plain c H). }
  unfold build_token. destruct (is_nil (m_val kv)).
  - rewrite app_nil_r. auto.
  - rewrite !free_app, !free_cons, !Hk, !Hh. auto.
Qed.

Lemma parse_build_token (kv : KeyVal) : parse_token (build_token kv) = Ok kv.
Proof.
  assert (Hk : free (is_char "=") (encode allow_query (m_key kv)) = true).
  { apply encode_free_disallowed; [reflexivity| |].
    - intros c H. by_hex H.
    - intros c H. apply (allow_query_plain c H). }
  destruct kv as [k v]. unfold build_token, parse_token. simpl in *.
  destruct v as [|x v]; simpl is_nil; cbv iota.
  - rewrite app_nil_r, (split_first_none _ _ Hk).
    rewrite decode_encode by reflexivity. reflexivity.
  - rewrite (split_first_free _ _ _ Hk).
    rewrite !decode_encode by reflexivity. reflexivity.
Qed.

Lemma rmap_parse_build (q : Query) :
  rmap parse_token (map build_token q) = Ok q.
Proof.
  induction q as [|kv q IH]; [reflexivity|].
  simpl. rewrite parse_build_token, IH. reflexivity.
Qed.

Lemma forallb_map {A B} (f : B -> bool) (g : A -> B) (l : list A) :
  (forall x, f (g x) = true) -> forallb f (map g l) = true.
Proof.
  intros H. induction l as [|x l IH]; [reflexivity|].
  simpl. rewrite H, IH. reflexivity.
Qed.

(** The text the builder writes for a query sequence reads back as the same
    sequence: order and repeated keys are kept. *)
Lemma parse_build_query (q : Query) :
  q <> [] ->
  parse_query (Some (join "&" (map build_token q))) = Ok q.
Proof.
  intros Hq. unfold parse_query.
  rewrite split_on_join.
  - apply rmap_parse_build.
  - destruct q; [congruence | discriminate].
  - apply forallb_map. intros kv. apply build_token_free.
Qed.

Lemma join_tokens_free (q : Query) :
  free (Ascii.eqb "#") (join "&" (map build_token q)) = true.
Proof.
  apply free_join; [reflexivity|].
  apply forallb_map. intros kv. apply build_token_free.
Qed.

(** C8: the query text [a=1&b=&a=2] parses to the sequence (a,1), (b,),
    (a,2) in this order; a Url holding the sequence serializes its tokens in
    the same order, both [a] tokens included, and the serialized text reads
    back as the same sequence.  The same holds for every sequence. *)
Theorem query_order_preserved :
  parse_query (Some (lit "a=1&b=&a=2")) = Ok query_a1_b_a2
  /\ rbind (parse_fields (lit "?a=1&b=&a=2")) (fun f => Ok (f_query f))
     = Ok query_a1_b_a2
  /\ m_query url_a1_b_a2 = query_a1_b_a2
  /\ fst (url_toString url_a1_b_a2) = Ok (lit "?a=1&b&a=2")
  /\ fst (query parse_fields (snd (parse (lit "?a=1&b&a=2") Url_default)))
     = Ok query_a1_b_a2
  /\ (forall kv q,
        parse_query (Some (join "&" (map build_token (kv :: q))))
        = Ok (kv :: q)).
Proof.
  repeat split; try reflexivity.
  intros kv q. apply parse_build_query. discriminate.
Qed.

(** ** Path, query and fragment *)

Lemma encode_path_free (p : str) :
  free path_end (encode allow_path p) = true.
Proof.
  apply encode_free_disallowed; [reflexivity| |].
  - intros c H. by_hex H.
  - apply allow_path_plain.
Qed.

Lemma build_fragment_starts (stop : ascii -> bool) (fr : str) :
  stop "#" = true -> starts_stop stop (build_fragment fr) = true.
Proof. intros H. unfold build_fragment. destruct fr; simpl; auto. Qed.

Lemma fragment_of_build (fr : str) :
  (if starts_with "#" (build_fragment fr) then tl (build_fragment fr) else [])
  = encode allow_fragment fr.
Proof. destruct fr; reflexivity. Qed.

Lemma split_tail_built (p : str) (q : Query) (fr : str) :
  split_tail (encode allow_path p ++ build_query q ++ build_fragment fr)
  = (encode allow_path p,
     if is_nil q then None else Some (join "&" (map build_token q)),
     encode allow_fragment fr).
Proof.
  unfold split_tail.
  rewrite span_until_free; [|apply encode_path_free|].
  - destruct q as [|kv q].
    + simpl build_query. simpl app. simpl is_nil.
      replace (starts_with "?" (build_fragment fr)) with false
        by (destruct fr; reflexivity).
      rewrite fragment_of_build. reflexivity.
    + unfold build_query. simpl is_nil. cbv iota.
      pose proof (join_tokens_free (kv :: q)) as Hj.
      set (j := join "&" (map build_token (kv :: q))) in *.
      simpl app. simpl starts_with. cbv iota. simpl tl.
      rewrite span_until_free;
        [|exact Hj|apply build_fragment_starts; reflexivity].
      rewrite fragment_of_build. reflexivity.
  - destruct q as [|kv q]; [|reflexivity].
    apply build_fragment_starts. reflexivity.
Qed.

Lemma build_tail_starts (f : Fields) :
  is_nil (f_path f) || is_absolute (f_path f) = true ->
  starts_stop authority_end (build_tail f) = true.
Proof.
  unfold build_tail. destruct (f_path f) as [|c p]; simpl.
  - intros _. destruct (f_query f); [|reflexivity].
    apply build_fragment_starts. reflexivity.
  - intros H. apply Ascii.eqb_eq in H. subst c. reflexivity.
Qed.

(** ** The characters of host literals and ports *)

Lemma forallb_weaken {A} (P Q : A -> bool) (l : list A) :
  (forall x, P x = true -> Q x = true) ->
  forallb P l = true -> forallb Q l = true.
Proof.
  intros H. induction l as [|x l IH]; [reflexivity|].
  rewrite !forallb_cons. intros E. apply andb_true_iff in E as [E1 E2].
  rewrite (H x E1), (IH E2). reflexivity.
Qed.

Lemma free_of_class (P stop : ascii -> bool) (s : str) :
  (forall c, P c = true -> stop c = false) ->
  forallb P s = true -> free stop s = true.
Proof.
  intros H. unfold free. apply forallb_weaken.
  intros c Hc. rewrite (H c Hc). reflexivity.
Qed.

Lemma ip6_plain (c : ascii) :
  ip6_char c = true ->
  authority_end c = false /\ is_char "@" c = false /\ is_char "]" c = false.
Proof. ascii_cases c; vm_compute; intros H; repeat split; discriminate. Qed.

Lemma ip4_plain (c : ascii) :
  ip4_char c = true ->
  allow_host c = true /\ is_char ":" c = false /\ is_char "%" c = false
  /\ is_char "[" c = false.
Proof. ascii_cases c; vm_compute; intros H; repeat split; discriminate. Qed.

Lemma digit_plain (c : ascii) :
  is_digit c = true ->
  is_hex c = true /\ ip4_char c = true.
Proof. ascii_cases c; vm_compute; intros H; repeat split; discriminate. Qed.

Lemma split_dcolon_eq (s l r : str) :
  split_dcolon s = Some (l, r) -> s = l ++ ":" :: ":" :: r.
Proof.
  revert l r. induction s as [|x s IH]; intros l r; [discriminate|].
  simpl. destruct s as [|y s']; [discriminate|].
  destruct (Ascii.eqb x ":" && Ascii.eqb y ":") eqn:E.
  - apply andb_true_iff in E as [Ex Ey].
    apply Ascii.eqb_eq in Ex, Ey. subst.
    intros H; inversion H; reflexivity.
  - destruct (split_dcolon (y :: s')) as [[a b]|]; [|discriminate].
    intros H; inversion H; subst. rewrite (IH a r eq_refl). reflexivity.
Qed.

Lemma hextet_chars (h : str) :
  is_hextet h = true -> forallb ip6_char h = true.
Proof.
  unfold is_hextet. intros H. apply andb_true_iff in H as [_ H].
  revert H. apply forallb_weaken. intros c Hc.
  unfold ip6_char. rewrite Hc. reflexivity.
Qed.

Lemma split_colon_chars (s : str) :
  forallb is_hextet (split_on ":" s) = true -> forallb ip6_char s = true.
Proof.
  intros H. apply split_on_forall with (c := ":"%char); [reflexivity|].
  revert H. apply forallb_weaken. apply hextet_chars.
Qed.

Lemma hextets_chars (s : str) :
  forallb is_hextet (hextets s) = true -> forallb ip6_char s = true.
Proof.
  unfold hextets. destruct s as [|c s]; [reflexivity|].
  simpl is_nil. cbv iota. apply split_colon_chars.
Qed.

(** An IPv6 literal is made of hex digits and colons. *)
Lemma is_ipv6_chars (s : str) : is_ipv6 s = true -> forallb ip6_char s = true.
Proof.
  unfold is_ipv6. destruct (split_dcolon s) as [[l r]|] eqn:E.
  - apply split_dcolon_eq in E. subst s.
    intros H. apply andb_true_iff in H as [H _].
    rewrite forallb_app in H. apply andb_true_iff in H as [Hl Hr].
    rewrite forallb_app, (hextets_chars l Hl). simpl.
    apply (hextets_chars r Hr).
  - intros H. apply andb_true_iff in H as [H _].
    apply split_colon_chars. exact H.
Qed.

Lemma octet_chars (p : str) : is_octet p = true -> forallb ip4_char p = true.
Proof.
  unfold is_octet. intros H.
  apply andb_true_iff in H as [H _]. apply andb_true_iff in H as [H _].
  apply andb_true_iff in H as [_ H].
  revert H. apply forallb_weaken. intros c Hc. apply (digit_plain c Hc).
Qed.

(** A dotted quad is made of digits and dots. *)
Lemma is_ipv4_chars (s : str) : is_ipv4 s = true -> forallb ip4_char s = true.
Proof.
  unfold is_ipv4.
  destruct (split_on "." s) as [|a [|b [|c [|d [|e l]]]]] eqn:E;
    try discriminate.
  intros H. apply andb_true_iff in H as [H Hd].
  apply andb_true_iff in H as [H Hc]. apply andb_true_iff in H as [Ha Hb].
  apply split_on_forall with (c := "."%char); [reflexivity|].
  rewrite E. simpl.
  rewrite (octet_chars a Ha), (octet_chars b Hb), (octet_chars c Hc),
    (octet_chars d Hd). reflexivity.
Qed.

Lemma is_ipv4_not_nil (s : str) : is_ipv4 s = true -> is_nil s = false.
Proof. destruct s; [discriminate|reflexivity]. Qed.

Lemma is_ipv6_not_nil (s : str) : is_ipv6 s = true -> is_nil s = false.
Proof. destruct s; [discriminate|reflexivity]. Qed.

Lemma port_digits (p : str) : is_port p = true -> forallb is_digit p = true.
Proof. unfold is_port. intros H. apply andb_true_iff in H as [H _]. exact H. Qed.

Lemma port_free (stop : ascii -> bool) (p : str) :
  (forall c, is_hex c = true -> stop c = false) ->
  is_port p = true -> free stop p = true.
Proof.
  intros Hs Hp. apply free_of_class with (P := is_digit).
  - intros c Hc. apply Hs. apply (digit_plain c Hc).
  - apply port_digits. exact Hp.
Qed.

(** ** What the encoder leaves alone *)

Lemma encode_id (allow : ascii -> bool) (s : str) :
  forallb allow s = true -> encode allow s = s.
Proof.
  induction s as [|c s IH]; [reflexivity|].
  rewrite forallb_cons. intros H. apply andb_true_iff in H as [Hc Hs].
  rewrite encode_cons, (IH Hs). unfold encode_char. rewrite Hc. reflexivity.
Qed.

Lemma encode_no_percent (allow : ascii -> bool) (s : str) :
  free (is_char "%") (encode allow s) = true -> encode allow s = s.
Proof.
  induction s as [|c s IH]; [reflexivity|].
  rewrite encode_cons, free_app. intros H. apply andb_true_iff in H as [Hc Hs].
  rewrite (IH Hs). unfold encode_char in *.
  destruct (allow c); [reflexivity | discriminate].
Qed.

Lemma encode_nil (allow : ascii -> bool) (s : str) :
  is_nil (encode allow s) = is_nil s.
Proof.
  destruct s as [|c s]; [reflexivity|].
  rewrite encode_cons. unfold encode_char. destruct (allow c); reflexivity.
Qed.

(** The encoded text starts with a [d] only if the text does and [d] is
    allowed. *)
Lemma encode_starts (allow : ascii -> bool) (d : ascii) (s : str) :
  Ascii.eqb "%" d = false ->
  starts_with d (encode allow s)
  = starts_with d s && allow d.
Proof.
  intros Hd. destruct s as [|c s]; [reflexivity|].
  rewrite encode_cons. unfold encode_char.
  change (starts_with d (c :: s)) with (Ascii.eqb c d).
  destruct (allow c) eqn:E.
  - change (starts_with d ([c] ++ encode allow s)) with (Ascii.eqb c d).
    destruct (Ascii.eqb c d) eqn:E'; [|reflexivity].
    apply Ascii.eqb_eq in E'. subst. rewrite E. reflexivity.
  - match goal with
    | |- starts_with d (("%"%char :: ?t) ++ ?r) = _ =>
        change (starts_with d (("%"%char :: t) ++ r)) with (Ascii.eqb "%" d)
    end.
    rewrite Hd. destruct (Ascii.eqb c d) eqn:E'; [|reflexivity].
    apply Ascii.eqb_eq in E'. subst. rewrite E. reflexivity.
Qed.

(** ** The authority *)

Lemma build_port_starts (h p : str) :
  starts_with "[" h = false -> starts_with "[" (h ++ build_port p) = false.
Proof.
  destruct h as [|x h]; [|intros H; exact H].
  intros _. destruct p; reflexivity.
Qed.

Lemma split_host_port_plain (h p : str) :
  starts_with "[" h = false ->
  free (is_char ":") h || negb (is_nil p) = true ->
  free (is_char ":") p = true ->
  split_host_port (h ++ build_port p) = (h, p).
Proof.
  intros Hb Hh Hp. unfold split_host_port.
  rewrite build_port_starts by exact Hb.
  destruct p as [|x p]; unfold build_port; simpl is_nil; cbv iota.
  - simpl in Hh. rewrite orb_false_r in Hh.
    rewrite app_nil_r, split_last_none by exact Hh. reflexivity.
  - rewrite split_last_free by exact Hp. reflexivity.
Qed.

Lemma split_host_port_bracket (host p : str) :
  free (is_char "]") host = true ->
  free (is_char ":") p = true ->
  split_host_port (("[" :: host ++ ["]"]) ++ build_port p)
  = ("[" :: host ++ ["]"], p).
Proof.
  intros Hh Hp. unfold split_host_port.
  change (starts_with "[" (("[" :: host ++ ["]"]) ++ build_port p)) with true.
  cbv iota.
  change (tl (("[" :: host ++ ["]"]) ++ build_port p))
    with ((host ++ ["]"]) ++ build_port p).
  rewrite <- app_assoc. change (["]"] ++ build_port p) with ("]" :: build_port p).
  rewrite split_first_free by exact Hh.
  destruct p as [|x p]; unfold build_port; simpl is_nil; cbv iota.
  - simpl split_last. rewrite app_nil_r. reflexivity.
  - change (":" :: x :: p) with ([] ++ ":" :: x :: p).
    rewrite split_last_free by exact Hp. reflexivity.
Qed.

Lemma classify_bracket (host : str) :
  is_ipv6 host = true -> classify_host ("[" :: host ++ ["]"]) = Ok (host, 6%Z).
Proof.
  intros H. unfold classify_host. simpl is_nil. cbv iota.
  change (starts_with "[" ("[" :: host ++ ["]"])) with true. cbv iota.
  simpl tl. rewrite rev_unit, Ascii.eqb_refl, rev_involutive, H. reflexivity.
Qed.

Lemma ipv4_starts (host : str) :
  is_ipv4 host = true -> starts_with "[" host = false.
Proof.
  intros H. apply is_ipv4_chars in H. destruct host as [|c host]; [reflexivity|].
  rewrite forallb_cons in H. apply andb_true_iff in H as [H _].
  apply (ip4_plain c H).
Qed.

Lemma classify_ipv4 (host : str) :
  is_ipv4 host = true -> classify_host host = Ok (host, 4%Z).
Proof.
  intros H. unfold classify_host.
  rewrite (is_ipv4_not_nil host H), (ipv4_starts host H), H. reflexivity.
Qed.

Lemma encode_host_not_ipv4 (host : str) :
  is_ipv4 host = false -> is_ipv4 (encode allow_host host) = false.
Proof.
  intros H. destruct (is_ipv4 (encode allow_host host)) eqn:E; [|reflexivity].
  assert (Hf : free (is_char "%") (encode allow_host host) = true).
  { apply free_of_class with (P := ip4_char).
    - intros c Hc. apply (ip4_plain c Hc).
    - apply is_ipv4_chars. exact E. }
  rewrite (encode_no_percent _ _ Hf) in E. congruence.
Qed.

Lemma encode_host_starts (host : str) :
  starts_with "[" (encode allow_host host) = false.
Proof.
  rewrite encode_starts by reflexivity. apply andb_false_r.
Qed.

Lemma classify_name (host : str) :
  is_nil host = false -> is_ipv4 host = false ->
  classify_host (encode allow_host host) = Ok (host, 0%Z).
Proof.
  intros Hn H4. unfold classify_host.
  rewrite encode_nil, Hn, encode_host_starts, (encode_host_not_ipv4 host H4).
  rewrite decode_encode by reflexivity. reflexivity.
Qed.

Lemma encode_host_free (host : str) :
  free authority_end (encode allow_host host) = true
  /\ free (is_char "@") (encode allow_host host) = true.
Proof.
  split; (apply encode_free_disallowed; [reflexivity| |]);
    try (intros c H; by_hex H); intros c H; apply (allow_user_plain c H).
Qed.

(** The host the builder writes stays inside the authority and reads back
    as the host and kind it was written from. *)
Lemma host_reads_back (f : Fields) :
  host_kind_ok f = true ->
  is_port (f_port f) = true ->
  negb (f_ip_v f =? 0)%Z
  || ((free (is_char ":") (f_host f) || negb (is_nil (f_port f)))
      && negb (is_ipv4 (f_host f))) = true ->
  exists h,
    build_host f = Ok h
    /\ free authority_end h = true
    /\ free (is_char "@") h = true
    /\ is_nil h = is_nil (f_host f)
    /\ split_host_port (h ++ build_port (f_port f)) = (h, f_port f)
    /\ classify_host h = Ok (f_host f, f_ip_v f).
Proof.
  destruct f as [sch user host k port pth q fr].
  unfold host_kind_ok, kind_ok, build_host.
  simpl. intros Hk Hp Hu.
  assert (Hpc : free (is_char ":") port = true).
  { apply port_free; [|exact Hp]. intros c H. by_hex H. }
  destruct (k =? 6)%Z eqn:E6.
  { apply Z.eqb_eq in E6. subst k. rewrite Hk.
    pose proof (is_ipv6_chars host Hk) as Hc.
    exists ("[" :: host ++ ["]"]). split; [reflexivity|].
    split; [|split; [|split; [|split]]].
    - rewrite free_cons, free_app.
      rewrite (free_of_class ip6_char) by
        (auto; intros c H; apply (ip6_plain c H)). reflexivity.
    - rewrite free_cons, free_app.
      rewrite (free_of_class ip6_char) by
        (auto; intros c H; apply (ip6_plain c H)). reflexivity.
    - rewrite (is_ipv6_not_nil host Hk). reflexivity.
    - apply split_host_port_bracket; [|exact Hpc].
      apply free_of_class with (P := ip6_char); auto.
      intros c H; apply (ip6_plain c H).
    - apply classify_bracket. exact Hk. }
  destruct (k =? 4)%Z eqn:E4.
  { apply Z.eqb_eq in E4. subst k. rewrite Hk.
    pose proof (is_ipv4_chars host Hk) as Hc.
    assert (He : encode allow_host host = host).
    { apply encode_id. revert Hc. apply forallb_weaken.
      intros c H. apply (ip4_plain c H). }
    exists host. rewrite He. split; [reflexivity|].
    destruct (encode_host_free host) as [H1 H2]. rewrite He in H1, H2.
    split; [exact H1|]. split; [exact H2|]. split; [reflexivity|]. split.
    - apply split_host_port_plain; [apply ipv4_starts; exact Hk| |exact Hpc].
      rewrite (free_of_class ip4_char) by
        (auto; intros c H; apply (ip4_plain c H)). reflexivity.
    - apply classify_ipv4. exact Hk. }
  exists (encode allow_host host). split; [reflexivity|].
  destruct (encode_host_free host) as [H1 H2].
  split; [exact H1|]. split; [exact H2|]. split; [apply encode_nil|].
  destruct (k =? 0)%Z eqn:E0.
  - apply Z.eqb_eq in E0. subst k. simpl in Hu.
    apply andb_true_iff in Hu as [Hc H4]. apply negb_true_iff in H4.
    apply negb_true_iff in Hk. split.
    + apply split_host_port_plain; [apply encode_host_starts| |exact Hpc].
      apply orb_true_iff in Hc as [Hc|Hc]; [|rewrite Hc; apply orb_true_r].
      rewrite encode_free_input; [reflexivity|reflexivity| |exact Hc].
      intros c H. by_hex H.
    + apply classify_name; assumption.
  - apply andb_true_iff in Hk as [Hk Hn]. apply Z.eqb_eq in Hk. subst k.
    destruct host; [|discriminate]. split.
    + apply split_host_port_plain; [reflexivity|reflexivity|exact Hpc].
    + reflexivity.
Qed.

Lemma build_port_free (stop : ascii -> bool) (p : str) :
  stop ":" = false ->
  (forall c, is_hex c = true -> stop c = false) ->
  is_port p = true -> free stop (build_port p) = true.
Proof.
  intros Hc Hs Hp. unfold build_port. destruct p as [|x p]; [reflexivity|].
  simpl is_nil. cbv iota. rewrite free_cons, Hc.
  apply (port_free stop (x :: p) Hs Hp).
Qed.

Lemma parse_authority_built (user h p : str) (hk : str * Z) :
  free (is_char "@") h = true ->
  is_port p = true ->
  split_host_port (h ++ build_port p) = (h, p) ->
  classify_host h = Ok hk ->
  parse_authority (build_user user ++ h ++ build_port p) = Ok (user, hk, p).
Proof.
  intros Hh Hp Hs Hc.
  assert (Hf : free (is_char "@") (h ++ build_port p) = true).
  { rewrite free_app, Hh, build_port_free; auto. intros c H. by_hex H. }
  unfold parse_authority, build_user.
  destruct user as [|x user]; simpl is_nil; cbv iota.
  - simpl app. rewrite (split_last_none _ _ Hf), Hs. simpl.
    rewrite Hc. simpl. rewrite Hp. reflexivity.
  - rewrite <- app_assoc. change (["@"] ++ h ++ build_port p)
      with ("@" :: h ++ build_port p).
    rewrite (split_last_free _ _ _ Hf), Hs.
    rewrite decode_encode by reflexivity. simpl.
    rewrite Hc. simpl. rewrite Hp. reflexivity.
Qed.

(** ** Scheme and authority in front of the path *)

Lemma split_first_eq (c : ascii) (s a b : str) :
  split_first c s = Some (a, b) ->
  s = a ++ c :: b /\ free (is_char c) a = true.
Proof.
  revert a b. induction s as [|x s IH]; intros a b; [discriminate|].
  simpl. destruct (Ascii.eqb x c) eqn:E.
  - apply Ascii.eqb_eq in E. subst x.
    intros H; inversion H; subst. split; reflexivity.
  - destruct (split_first c s) as [[a' b']|]; [|discriminate].
    intros H; inversion H; subst.
    destruct (IH a' b eq_refl) as [-> Hf].
    split; [reflexivity|]. rewrite free_cons. unfold is_char at 1.
    rewrite E, Hf. reflexivity.
Qed.

Lemma split_first_none_free (c : ascii) (s : str) :
  split_first c s = None -> free (is_char c) s = true.
Proof.
  induction s as [|x s IH]; [reflexivity|]. cbn [split_first].
  destruct (Ascii.eqb x c) eqn:E; [discriminate|].
  destruct (split_first c s) as [[a b]|]; [discriminate|].
  intros _. rewrite free_cons. unfold is_char at 1.
  rewrite E, IH; reflexivity.
Qed.

Lemma take_scheme_built (sch rest : str) :
  is_scheme sch = true -> take_scheme (build_scheme sch ++ rest) = (sch, rest).
Proof.
  intros H. unfold build_scheme, take_scheme.
  destruct sch as [|c sch]; [discriminate|]. simpl is_nil. cbv iota.
  rewrite <- app_assoc. change ([":"] ++ rest) with (":" :: rest).
  rewrite scheme_end_found by (apply is_scheme_chars; exact H).
  rewrite H. reflexivity.
Qed.

Lemma is_scheme_encode (a : str) :
  is_scheme (encode allow_path a) = true -> is_scheme a = true.
Proof.
  intros H.
  assert (Hf : free (is_char "%") (encode allow_path a) = true).
  { apply free_of_class with (P := is_scheme_char).
    - intros c Hc. apply (scheme_char_plain c Hc).
    - apply is_scheme_chars. exact H. }
  rewrite (encode_no_percent _ _ Hf) in H. exact H.
Qed.

Lemma path_end_authority_end (c : ascii) :
  path_end c = true ->
  authority_end c = true /\ Ascii.eqb c "/" = false.
Proof. ascii_cases c; vm_compute; intros H; auto; discriminate. Qed.

Lemma starts_stop_weaken (P Q : ascii -> bool) (s : str) :
  (forall c, P c = true -> Q c = true) ->
  starts_stop P s = true -> starts_stop Q s = true.
Proof. intros H. destruct s as [|c s]; [reflexivity|]. simpl. apply H. Qed.

(** Without a scheme and without an authority the path comes first; it is
    not taken for a scheme unless it begins with a scheme name and [:]. *)
Lemma take_scheme_relative (p t : str) :
  names_scheme p = false ->
  starts_stop path_end t = true ->
  take_scheme (encode allow_path p ++ t) = ([], encode allow_path p ++ t).
Proof.
  intros Hn Ht. unfold names_scheme in Hn. unfold take_scheme.
  destruct (split_first ":" p) as [[a b]|] eqn:E.
  - apply split_first_eq in E as [-> Hf].
    rewrite encode_app, encode_cons.
    change (encode_char allow_path ":") with [":"%char].
    rewrite <- app_assoc. simpl app.
    assert (Hf' : free (is_char ":") (encode allow_path a) = true).
    { apply encode_free_input; [reflexivity| |exact Hf].
      intros c H. by_hex H. }
    destruct (scheme_end_colon (encode allow_path a)
                (encode allow_path b ++ t) Hf') as [-> | ->]; [reflexivity|].
    destruct (is_scheme (encode allow_path a)) eqn:Es; [|reflexivity].
    apply is_scheme_encode in Es. congruence.
  - apply split_first_none_free in E.
    rewrite scheme_end_none; [reflexivity| |].
    + apply encode_free_input; [reflexivity| |exact E].
      intros c H. by_hex H.
    + revert Ht. apply starts_stop_weaken.
      intros c H. apply (path_end_authority_end c H).
Qed.

Lemma take_authority_built (auth t : str) :
  free authority_end auth = true ->
  starts_stop authority_end t = true ->
  take_authority (lit "//" ++ auth ++ t) = (Some auth, t).
Proof.
  intros Ha Ht. simpl. rewrite (span_until_free _ _ _ Ha Ht). reflexivity.
Qed.

Lemma take_authority_single (s : str) :
  is_double_slash s = false -> take_authority s = (None, s).
Proof.
  unfold is_double_slash, take_authority.
  destruct s as [|a [|b s]]; try reflexivity.
  simpl. intros ->. reflexivity.
Qed.

Lemma starts_with_app (d : ascii) (a b : str) :
  starts_with d (a ++ b)
  = if is_nil a then starts_with d b else starts_with d a.
Proof. destruct a; reflexivity. Qed.

Lemma starts_stop_not (d : ascii) (t : str) :
  starts_stop path_end t = true -> Ascii.eqb d "/" = true ->
  starts_with d t = false.
Proof.
  intros Ht Hd. apply Ascii.eqb_eq in Hd. subst d.
  destruct t as [|c t]; [reflexivity|]. simpl in *.
  apply (path_end_authority_end c Ht).
Qed.

Lemma encode_path_single (p t : str) :
  is_double_slash p = false ->
  starts_stop path_end t = true ->
  is_double_slash (encode allow_path p ++ t) = false.
Proof.
  intros Hp Ht. unfold is_double_slash in *.
  assert (Hs : starts_with "/" t = false)
    by (apply starts_stop_not; [exact Ht|reflexivity]).
  destruct p as [|c p].
  - simpl. rewrite Hs. reflexivity.
  - rewrite encode_cons. unfold encode_char.
    destruct (allow_path c) eqn:Ec; [|reflexivity].
    simpl app. simpl tl. simpl in Hp.
    change (starts_with "/" (c :: encode allow_path p ++ t))
      with (Ascii.eqb c "/").
    destruct (Ascii.eqb c "/"); [|reflexivity]. simpl in *.
    rewrite starts_with_app, encode_nil, encode_starts by reflexivity.
    rewrite Hp, Hs. destruct (is_nil p); reflexivity.
Qed.

Lemma parse_fields_parts (raw sch r1 r2 rawpath rawfragment : str)
    (auth rawquery : option str) :
  take_scheme raw = (sch, r1) ->
  take_authority r1 = (auth, r2) ->
  split_tail r2 = (rawpath, rawquery, rawfragment) ->
  parse_fields raw
  = rbind (match auth with
           | Some a => parse_authority a
           | None => Ok ([], ([], (-1)%Z), [])
           end) (fun '(user, (h, k), p) =>
    rbind (decode rawpath) (fun pth =>
    rbind (parse_query rawquery) (fun q =>
    rbind (decode rawfragment) (fun fr =>
    Ok {| f_scheme := sch; f_user := user; f_host := h; f_ip_v := k;
          f_port := p; f_path := pth; f_query := q; f_fragment := fr |})))).
Proof. intros H1 H2 H3. unfold parse_fields. rewrite H1, H2, H3. reflexivity. Qed.

Lemma query_reads_back (q : Query) :
  parse_query (if is_nil q then None
               else Some (join "&" (map build_token q))) = Ok q.
Proof.
  destruct q as [|kv q]; [reflexivity|].
  simpl is_nil. cbv iota. apply parse_build_query. discriminate.
Qed.

Lemma build_user_free (user : str) :
  free authority_end (build_user user) = true.
Proof.
  unfold build_user. destruct (is_nil user); [reflexivity|].
  rewrite free_app. rewrite encode_free_disallowed; [reflexivity|reflexivity| |].
  - intros c H. by_hex H.
  - intros c H. apply (allow_user_plain c H).
Qed.

(** ** The serialized text of a field set reads back as the field set *)

Lemma no_authority_fields (f : Fields) :
  has_authority f = false -> host_kind_ok f = true ->
  f_user f = [] /\ f_host f = [] /\ f_ip_v f = (-1)%Z.
Proof.
  unfold has_authority, host_kind_ok, kind_ok. intros H Hk.
  apply orb_false_iff in H as [Hh Hu].
  apply negb_false_iff in Hh, Hu.
  destruct (f_user f); [|discriminate].
  destruct (f_host f); [|discriminate].
  repeat split.
  destruct (f_ip_v f =? 6)%Z; [discriminate|].
  destruct (f_ip_v f =? 4)%Z; [discriminate|].
  destruct (f_ip_v f =? 0)%Z; [discriminate|].
  apply andb_true_iff in Hk as [Hk _]. apply Z.eqb_eq. exact Hk.
Qed.

Lemma build_then_parse (f : Fields) :
  well_formed f = true ->
  unambiguous f = true ->
  exists s, build_fields f = Ok s /\ parse_fields s = Ok f.
Proof.
  unfold well_formed, unambiguous. intros Hw Hu.
  apply andb_true_iff in Hw as [Hw Hpath].
  apply andb_true_iff in Hw as [Hw Hkind].
  apply andb_true_iff in Hw as [Hsch Hport].
  apply andb_true_iff in Hu as [Hauth Hname].
  destruct (host_reads_back f Hkind Hport Hname)
    as (h & Hbh & Hfa & Hfu & Hnil & Hsplit & Hclass).
  assert (Hcheck : has_authority f && negb (is_nil (f_path f))
                   && negb (is_absolute (f_path f)) = false).
  { destruct (has_authority f); [|reflexivity].
    destruct (is_nil (f_path f)); [reflexivity|].
    simpl in Hpath. rewrite Hpath. reflexivity. }
  unfold build_fields. rewrite Hbh. simpl rbind. rewrite Hport, Hcheck.
  simpl negb. cbv iota.
  eexists. split; [reflexivity|].
  assert (Htail' : starts_stop path_end
                     (build_query (f_query f)
                      ++ build_fragment (f_fragment f)) = true).
  { destruct (f_query f); [|reflexivity].
    apply build_fragment_starts. reflexivity. }
  assert (Hst : split_tail (build_tail f)
                = (encode allow_path (f_path f),
                   if is_nil (f_query f) then None
                   else Some (join "&" (map build_token (f_query f))),
                   encode allow_fragment (f_fragment f)))
    by apply split_tail_built.
  destruct (has_authority f) eqn:Ha.
  - (* an authority is written *)
    cbv iota. pose proof (build_tail_starts f Hpath) as Htail.
    set (auth := build_user (f_user f) ++ h ++ build_port (f_port f)).
    assert (Hfree : free authority_end auth = true).
    { unfold auth. rewrite !free_app, build_user_free, Hfa.
      rewrite build_port_free; auto. intros c H. by_hex H. }
    replace (build_user (f_user f) ++ h ++ build_port (f_port f)
             ++ build_tail f) with (auth ++ build_tail f)
      by (unfold auth; rewrite <- !app_assoc; reflexivity).
    assert (Hts : take_scheme (build_scheme (f_scheme f)
                               ++ ["/"; "/"] ++ auth ++ build_tail f)
                  = (f_scheme f, ["/"; "/"] ++ auth ++ build_tail f)).
    { destruct (f_scheme f) as [|c sch] eqn:Es; [reflexivity|].
      apply take_scheme_built. exact Hsch. }
    rewrite (parse_fields_parts _ _ _ _ _ _ _ _ Hts
               (take_authority_built auth _ Hfree Htail) Hst).
    unfold auth. rewrite (parse_authority_built _ _ _ _ Hfu Hport Hsplit Hclass).
    simpl rbind. rewrite !decode_encode by reflexivity. simpl rbind.
    rewrite query_reads_back. simpl rbind. destruct f; reflexivity.
  - (* no authority: the path follows the scheme *)
    destruct (no_authority_fields f Ha Hkind) as (Huser & Hhost & Hk).
    simpl in Hauth. apply andb_true_iff in Hauth as [Hauth Hns].
    apply andb_true_iff in Hauth as [Hp Hds].
    apply negb_true_iff in Hds.
    rewrite Hhost in Hnil. destruct h; [|discriminate].
    destruct (f_port f) eqn:Ep; [|discriminate].
    rewrite Huser. cbv iota. simpl app.
    assert (Hts : take_scheme (build_scheme (f_scheme f) ++ build_tail f)
                  = (f_scheme f, build_tail f)).
    { destruct (f_scheme f) as [|c sch] eqn:Es.
      - simpl in Hns. apply negb_true_iff in Hns.
        apply take_scheme_relative; assumption.
      - apply take_scheme_built. exact Hsch. }
    assert (Hta : take_authority (build_tail f) = (None, build_tail f)).
    { apply take_authority_single. apply encode_path_single; assumption. }
    rewrite (parse_fields_parts _ _ _ _ _ _ _ _ Hts Hta Hst).
    simpl rbind. rewrite !decode_encode by reflexivity. simpl rbind.
    rewrite query_reads_back. simpl rbind.
    destruct f; simpl in *. subst. reflexivity.
Qed.

(** ** What the parser produces is well formed *)

Lemma take_scheme_wf (raw sch r1 : str) :
  take_scheme raw = (sch, r1) -> is_nil sch || is_scheme sch = true.
Proof.
  unfold take_scheme. destruct (scheme_end raw) as [[a rest]|].
  - destruct (is_scheme a) eqn:E; intros H; inversion H; subst;
      [rewrite E; apply orb_true_r | reflexivity].
  - intros H; inversion H; reflexivity.
Qed.

Lemma span_until_rest (stop : ascii -> bool) (s : str) :
  starts_stop stop (snd (span_until stop s)) = true.
Proof.
  induction s as [|c s IH]; [reflexivity|]. simpl.
  destruct (stop c) eqn:E; [exact E|].
  destruct (span_until stop s); exact IH.
Qed.

Lemma decode_nil (s : str) : decode s = Ok [] -> s = [].
Proof.
  destruct s as [|c s]; [reflexivity|]. simpl.
  destruct (Ascii.eqb c "%").
  - destruct s as [|h [|l s']]; try discriminate.
    destruct (hex_val h), (hex_val l); try discriminate.
    destruct (decode s'); discriminate.
  - destruct (decode s); discriminate.
Qed.

Lemma decode_absolute (s p : str) :
  starts_with "/" s = true -> decode s = Ok p -> is_absolute p = true.
Proof.
  destruct s as [|c s]; [discriminate|]. simpl. intros H.
  apply Ascii.eqb_eq in H. subst c. simpl.
  destruct (decode s); intros E; inversion E; reflexivity.
Qed.

Lemma classify_host_wf (t h : str) (k : Z) :
  classify_host t = Ok (h, k) -> kind_ok h k = true.
Proof.
  unfold classify_host. destruct (is_nil t) eqn:En.
  - intros H; inversion H; reflexivity.
  - destruct (starts_with "[" t).
    + destruct (rev (tl t)) as [|c r]; [discriminate|].
      destruct (Ascii.eqb c "]" && is_ipv6 (rev r)) eqn:E; [|discriminate].
      apply andb_true_iff in E as [_ E].
      intros H; inversion H; subst. exact E.
    + destruct (is_ipv4 t) eqn:E4.
      * intros H; inversion H; subst. exact E4.
      * destruct (decode t) as [d|e] eqn:Ed; [|discriminate].
        simpl. intros H; inversion H; subst. unfold kind_ok. simpl.
        destruct h; [|reflexivity].
        apply decode_nil in Ed. subst t. discriminate.
Qed.

Lemma parse_authority_wf (a user h p : str) (k : Z) :
  parse_authority a = Ok (user, (h, k), p) ->
  is_port p = true /\ kind_ok h k = true.
Proof.
  unfold parse_authority.
  destruct (match split_last "@" a with
            | Some (u, h0) => (u, h0)
            | None => ([], a)
            end) as [rawuser hp].
  destruct (split_host_port hp) as [ht pt].
  destruct (decode rawuser); [|discriminate]. simpl.
  destruct (classify_host ht) as [[h' k']|] eqn:Ec; [|discriminate]. simpl.
  destruct (is_port pt) eqn:Ep; [|discriminate].
  intros H; inversion H; subst. split; [exact Ep|].
  apply (classify_host_wf _ _ _ Ec).
Qed.

Lemma split_tail_path (r2 rawpath rawfragment : str) (rawquery : option str) :
  split_tail r2 = (rawpath, rawquery, rawfragment) ->
  rawpath = fst (span_until path_end r2).
Proof.
  unfold split_tail. destruct (span_until path_end r2) as [pth r3].
  destruct (if starts_with "?" r3
            then let (q, r) := span_until (Ascii.eqb "#") (tl r3) in (Some q, r)
            else (None, r3)).
  intros H; inversion H; reflexivity.
Qed.

(** After an authority the raw path is empty or begins with [/]. *)
Lemma path_after_authority (r2 : str) :
  starts_stop authority_end r2 = true ->
  is_nil (fst (span_until path_end r2))
  || starts_with "/" (fst (span_until path_end r2)) = true.
Proof.
  destruct r2 as [|c r]; [reflexivity|]. simpl. intros Hc.
  destruct (path_end c) eqn:Ep; [reflexivity|].
  destruct (span_until path_end r). simpl.
  revert Hc Ep. ascii_cases c; vm_compute; auto.
Qed.

Lemma take_authority_rest (r1 a r2 : str) :
  take_authority r1 = (Some a, r2) -> starts_stop authority_end r2 = true.
Proof.
  unfold take_authority. destruct r1 as [|x [|y t]]; try discriminate.
  destruct (Ascii.eqb x "/" && Ascii.eqb y "/"); [|discriminate].
  pose proof (span_until_rest authority_end t) as H.
  destruct (span_until authority_end t). intros E; inversion E; subst.
  exact H.
Qed.

Lemma parse_well_formed (raw : str) (f : Fields) :
  parse_fields raw = Ok f -> well_formed f = true.
Proof.
  unfold parse_fields.
  destruct (take_scheme raw) as [sch r1] eqn:Ets.
  destruct (take_authority r1) as [auth r2] eqn:Eta.
  destruct (split_tail r2) as [[rawpath rawquery] rawfragment] eqn:Est.
  pose proof (take_scheme_wf _ _ _ Ets) as Hsch.
  pose proof (split_tail_path _ _ _ _ Est) as Hrp.
  destruct auth as [a|].
  - destruct (parse_authority a) as [[[user [h k]] p]|] eqn:Ea; [|discriminate].
    destruct (parse_authority_wf _ _ _ _ _ Ea) as [Hp Hk].
    pose proof (path_after_authority r2 (take_authority_rest _ _ _ Eta)) as Hpa.
    rewrite <- Hrp in Hpa. clear Hrp. simpl.
    destruct (decode rawpath) as [pth|] eqn:Ed; [|discriminate]. simpl.
    destruct (parse_query rawquery); [|discriminate]. simpl.
    destruct (decode rawfragment); [|discriminate]. simpl.
    intros H; inversion H; subst. unfold well_formed, host_kind_ok. simpl.
    rewrite Hsch, Hp. fold (kind_ok h k). rewrite Hk. simpl.
    apply orb_true_iff in Hpa as [Hn|Hs].
    + destruct rawpath; [|discriminate]. simpl in Ed. inversion Ed.
      simpl is_nil. rewrite orb_true_r. reflexivity.
    + rewrite (decode_absolute _ _ Hs Ed). rewrite !orb_true_r. reflexivity.
  - simpl.
    destruct (decode rawpath) as [pth|]; [|discriminate]. simpl.
    destruct (parse_query rawquery); [|discriminate]. simpl.
    destruct (decode rawfragment); [|discriminate]. simpl.
    intros H; inversion H; subst. unfold well_formed, host_kind_ok. simpl.
    rewrite Hsch. reflexivity.
Qed.

(** ** The port *)










(** ** The text of an ambiguous field set reads back differently *)

Lemma build_host_ok (f : Fields) :
  host_kind_ok f = true -> build_host f = Ok (host_text f).
Proof.
  unfold host_kind_ok, kind_ok, build_host, host_text.
  destruct (f_ip_v f =? 6)%Z; [intros ->; reflexivity|].
  destruct (f_ip_v f =? 4)%Z; [intros ->; reflexivity|]. reflexivity.
Qed.

(** The builder succeeds on every well-formed field set. *)
Lemma build_fields_ok (f : Fields) :
  well_formed f = true -> build_fields f = Ok (built_text f).
Proof.
  unfold well_formed. intros Hw.
  apply andb_true_iff in Hw as [Hw Hpath].
  apply andb_true_iff in Hw as [Hw Hkind].
  apply andb_true_iff in Hw as [_ Hport].
  unfold build_fields. rewrite (build_host_ok f Hkind). simpl rbind.
  rewrite Hport. simpl negb. cbv iota.
  replace (has_authority f && negb (is_nil (f_path f))
           && negb (is_absolute (f_path f))) with false; [reflexivity|].
  destruct (has_authority f); [|reflexivity].
  destruct (is_nil (f_path f)); [reflexivity|].
  simpl in Hpath. rewrite Hpath. reflexivity.
Qed.

(** What a successful parse says of the pieces of its input. *)
Lemma parse_fields_inv (raw sch r1 r2 rawpath rawfragment : str)
    (auth rawquery : option str) (f : Fields) :
  take_scheme raw = (sch, r1) ->
  take_authority r1 = (auth, r2) ->
  split_tail r2 = (rawpath, rawquery, rawfragment) ->
  parse_fields raw = Ok f ->
  f_scheme f = sch
  /\ match auth with
     | Some a => parse_authority a
     | None => Ok ([], ([], (-1)%Z), [])
     end = Ok (f_user f, (f_host f, f_ip_v f), f_port f)
  /\ decode rawpath = Ok (f_path f).
Proof.
  intros H1 H2 H3. rewrite (parse_fields_parts _ _ _ _ _ _ _ _ H1 H2 H3).
  destruct (match auth with
            | Some a => parse_authority a
            | None => Ok ([], ([], (-1)%Z), [])
            end) as [[[user [h k]] p]|]; [|discriminate]. simpl.
  destruct (decode rawpath); [|discriminate]. simpl.
  destruct (parse_query rawquery); [|discriminate]. simpl.
  destruct (decode rawfragment); [|discriminate]. simpl.
  intros H; inversion H; subst. simpl. auto.
Qed.

Lemma take_scheme_before (sch rest : str) (c : ascii) :
  is_nil sch || is_scheme sch = true ->
  Ascii.eqb c ":" || authority_end c = true ->
  take_scheme (build_scheme sch ++ c :: rest) = (sch, c :: rest).
Proof.
  intros Hs Hc. destruct sch as [|x sch].
  - simpl. unfold take_scheme. simpl scheme_end.
    destruct (Ascii.eqb c ":"); [reflexivity|].
    simpl in Hc. rewrite Hc. reflexivity.
  - apply take_scheme_built. exact Hs.
Qed.

Lemma span_until_app (stop : ascii -> bool) (s : str) :
  s = fst (span_until stop s) ++ snd (span_until stop s).
Proof.
  induction s as [|c s IH]; [reflexivity|]. simpl.
  destruct (stop c); [reflexivity|].
  destruct (span_until stop s). simpl in *. rewrite <- IH. reflexivity.
Qed.

Lemma span_until_fst_free (stop : ascii -> bool) (s : str) :
  free stop (fst (span_until stop s)) = true.
Proof.
  induction s as [|c s IH]; [reflexivity|]. simpl.
  destruct (stop c) eqn:E; [reflexivity|].
  destruct (span_until stop s) as [a b]. cbn [fst] in *.
  rewrite free_cons, E, IH. reflexivity.
Qed.

Lemma allow_path_segment (c : ascii) :
  allow_path c = true -> is_char "/" c = false -> authority_end c = false.
Proof. ascii_cases c; vm_compute; intros H1 H2; auto; discriminate. Qed.

(** In the encoded path the first [/] is the first [/] of the path. *)
Lemma span_encoded_path (p t : str) :
  starts_stop path_end t = true ->
  span_until authority_end (encode allow_path p ++ t)
  = (encode allow_path (fst (span_until (is_char "/") p)),
     encode allow_path (snd (span_until (is_char "/") p)) ++ t).
Proof.
  intros Ht.
  pose proof (span_until_app (is_char "/") p) as Hp.
  pose proof (span_until_fst_free (is_char "/") p) as Hf.
  pose proof (span_until_rest (is_char "/") p) as Hr.
  destruct (span_until (is_char "/") p) as [p1 p2]. simpl in *.
  rewrite Hp at 1. rewrite encode_app, <- app_assoc.
  apply span_until_free.
  - apply encode_free; [reflexivity| |].
    + intros c H. by_hex H.
    + intros c Hin Ha. apply allow_path_segment; [exact Ha|].
      unfold free in Hf. rewrite forallb_forall in Hf.
      apply negb_true_iff. apply Hf. exact Hin.
  - destruct p2 as [|c p2].
    + simpl. revert Ht. apply starts_stop_weaken.
      intros c H. apply (path_end_authority_end c H).
    + simpl in Hr. unfold is_char in Hr. apply Ascii.eqb_eq in Hr. subst c.
      reflexivity.
Qed.

Lemma decode_app (x y d : str) :
  decode x = Ok d ->
  decode (x ++ y) = match decode y with
                    | Ok e => Ok (d ++ e)
                    | Throw e => Throw e
                    end.
Proof.
  remember (List.length x) as n eqn:Hn.
  revert x d Hn. induction n as [n IH] using lt_wf_ind. intros x d Hn.
  destruct x as [|c x].
  - simpl. intros H; inversion H. simpl. destruct (decode y); reflexivity.
  - simpl. destruct (Ascii.eqb c "%").
    + destruct x as [|h [|l x']]; try discriminate.
      simpl. destruct (hex_val h), (hex_val l); try discriminate.
      destruct (decode x') as [r|] eqn:E; [|discriminate].
      intros H; inversion H; subst.
      rewrite (IH (List.length x')) with (d := r); simpl in *; auto; try lia.
      destruct (decode y); reflexivity.
    + destruct (decode x) as [r|] eqn:E; [|discriminate].
      intros H; inversion H; subst.
      rewrite (IH (List.length x)) with (d := r); simpl in *; auto; try lia.
      destruct (decode y); reflexivity.
Qed.

Lemma split_last_some (c : ascii) (s : str) :
  free (is_char c) s = false ->
  exists x y, split_last c s = Some (x, y) /\ s = x ++ c :: y.
Proof.
  induction s as [|a s IH]; [discriminate|].
  rewrite free_cons. intros H. simpl.
  destruct (free (is_char c) s) eqn:Es.
  - rewrite (split_last_none c s Es).
    rewrite andb_true_r in H. apply negb_false_iff in H.
    unfold is_char in H. rewrite H. apply Ascii.eqb_eq in H. subst a.
    exists [], s. split; reflexivity.
  - destruct (IH eq_refl) as (x & y & -> & ->).
    exists (a :: x), y. split; reflexivity.
Qed.

(** An allowed character of the text is a character of the encoded text. *)
Lemma encode_keeps (allow : ascii -> bool) (d : ascii) (s : str) :
  allow d = true ->
  free (is_char d) (encode allow s) = true -> free (is_char d) s = true.
Proof.
  intros Hd. induction s as [|c s IH]; [reflexivity|].
  rewrite encode_cons, free_app, free_cons.
  intros H. apply andb_true_iff in H as [Hc Hs]. rewrite (IH Hs), andb_true_r.
  destruct (is_char d c) eqn:E; [|reflexivity].
  unfold is_char in E. apply Ascii.eqb_eq in E. subst c.
  unfold encode_char in Hc. rewrite Hd in Hc. simpl in Hc.
  unfold is_char in Hc. rewrite Ascii.eqb_refl in Hc. discriminate.
Qed.

Lemma classify_name_inv (x h : str) :
  classify_host x = Ok (h, 0%Z) -> decode x = Ok h.
Proof.
  unfold classify_host. destruct (is_nil x); [discriminate|].
  destruct (starts_with "[" x).
  - destruct (rev (tl x)) as [|c r]; [discriminate|].
    destruct (Ascii.eqb c "]" && is_ipv6 (rev r)); discriminate.
  - destruct (is_ipv4 x); [discriminate|].
    destruct (decode x); [|discriminate]. simpl.
    intros H; inversion H; reflexivity.
Qed.

Lemma parse_authority_text (user h p : str) :
  free (is_char "@") h = true ->
  is_port p = true ->
  parse_authority (build_user user ++ h ++ build_port p)
  = (let (ht, pt) := split_host_port (h ++ build_port p) in
     rbind (classify_host ht) (fun hk =>
     if is_port pt then Ok (user, hk, pt) else Throw parse_error)).
Proof.
  intros Hh Hp.
  assert (Hf : free (is_char "@") (h ++ build_port p) = true).
  { rewrite free_app, Hh, build_port_free; auto. intros c H. by_hex H. }
  unfold parse_authority, build_user.
  destruct user as [|x user]; simpl is_nil; cbv iota.
  - simpl app. rewrite (split_last_none _ _ Hf).
    destruct (split_host_port (h ++ build_port p)). reflexivity.
  - rewrite <- app_assoc. change (["@"] ++ h ++ build_port p)
      with ("@" :: h ++ build_port p).
    rewrite (split_last_free _ _ _ Hf).
    destruct (split_host_port (h ++ build_port p)).
    rewrite decode_encode by reflexivity. reflexivity.
Qed.

Lemma build_then_parse_differs (f : Fields) :
  well_formed f = true ->
  unambiguous f = false ->
  parse_fields (built_text f) <> Ok f.
Proof.
  intros Hw Hu Hparse. pose proof Hw as Hw'. unfold well_formed in Hw'.
  apply andb_true_iff in Hw' as [Hw' Hpath].
  apply andb_true_iff in Hw' as [Hw' Hkind].
  apply andb_true_iff in Hw' as [Hsch Hport].
  assert (Htail' : starts_stop path_end
                     (build_query (f_query f)
                      ++ build_fragment (f_fragment f)) = true).
  { destruct (f_query f); [|reflexivity].
    apply build_fragment_starts. reflexivity. }
  unfold unambiguous in Hu. apply andb_false_iff in Hu as [Hu|Hu].
  - apply orb_false_iff in Hu as [Ha Hu].
    destruct (no_authority_fields f Ha Hkind) as (Huser & Hhost & Hk).
    unfold built_text, host_text in Hparse.
    rewrite Ha, Huser, Hhost, Hk in Hparse. simpl in Hparse.
    destruct (f_port f) as [|x p] eqn:Ep.
    + (* no port: the path is read as an authority or as a scheme *)
      simpl in Hparse, Hu.
      destruct (is_double_slash (f_path f)) eqn:Ed.
      * destruct (f_path f) as [|c1 [|c2 p']] eqn:Epath; try discriminate.
        { unfold is_double_slash in Ed. cbn [tl starts_with] in Ed.
          destruct (Ascii.eqb c1 "/"); discriminate. }
        unfold is_double_slash in Ed. cbn [tl starts_with] in Ed.
        apply andb_true_iff in Ed as [E1 E2].
        apply Ascii.eqb_eq in E1, E2. subst c1 c2.
        unfold build_tail in Hparse. rewrite Epath in Hparse.
        rewrite !encode_cons in Hparse.
        change (encode_char allow_path "/") with ["/"] in Hparse.
        simpl app in Hparse.
        pose proof (take_scheme_before (f_scheme f)
                      ("/" :: encode allow_path p'
                           ++ build_query (f_query f)
                           ++ build_fragment (f_fragment f)) "/" Hsch eq_refl)
          as Hts.
        assert (Hta : take_authority
                        ("/" :: "/" :: encode allow_path p'
                             ++ build_query (f_query f)
                             ++ build_fragment (f_fragment f))
                      = (Some (encode allow_path
                                 (fst (span_until (is_char "/") p'))),
                         encode allow_path (snd (span_until (is_char "/") p'))
                         ++ build_query (f_query f)
                         ++ build_fragment (f_fragment f))).
        { simpl take_authority. rewrite span_encoded_path by exact Htail'.
          reflexivity. }
        destruct (parse_fields_inv _ _ _ _ _ _ _ _ _ Hts Hta
                    (split_tail_built _ _ _) Hparse) as (_ & _ & Hd).
        rewrite decode_encode in Hd by reflexivity. rewrite Epath in Hd.
        inversion Hd as [Hd'].
        pose proof (span_until_app (is_char "/") p') as Hp'.
        apply (f_equal (@List.length ascii)) in Hp'.
        rewrite length_app, Hd' in Hp'. simpl in Hp'. lia.
      * simpl in Hu. apply orb_false_iff in Hu as [Hs Hn].
        apply negb_false_iff in Hs, Hn.
        destruct (f_scheme f) as [|c sch] eqn:Es; [|discriminate].
        simpl in Hparse. unfold names_scheme in Hn.
        destruct (split_first ":" (f_path f)) as [[a b]|] eqn:E;
          [|discriminate].
        apply split_first_eq in E as [Epath _].
        unfold build_tail in Hparse. rewrite Epath in Hparse.
        rewrite encode_app, encode_cons in Hparse.
        change (encode_char allow_path ":") with [":"] in Hparse.
        rewrite encode_id in Hparse.
        2:{ generalize (is_scheme_chars a Hn). apply forallb_weaken.
            intros c Hc. apply (scheme_char_plain c Hc). }
        rewrite <- !app_assoc in Hparse. simpl app in Hparse.
        match type of Hparse with
        | parse_fields (a ++ ":" :: ?rest) = _ =>
            assert (Hts : take_scheme (a ++ ":" :: rest) = (a, rest))
        end.
        { unfold take_scheme.
          rewrite scheme_end_found by (apply is_scheme_chars; exact Hn).
          rewrite Hn. reflexivity. }
        match type of Hts with
        | _ = (_, ?rest) =>
            destruct (take_authority rest) as [auth r2] eqn:Eta;
            destruct (split_tail r2) as [[rp rq] rf] eqn:Est
        end.
        destruct (parse_fields_inv _ _ _ _ _ _ _ _ _ Hts Eta Est Hparse)
          as (Hsc & _).
        rewrite Es in Hsc. subst a. discriminate.
    + (* a port is written without a host before it *)
      unfold build_port in Hparse. simpl is_nil in Hparse. cbv iota in Hparse.
      simpl app in Hparse.
      pose proof (take_scheme_before (f_scheme f) (x :: p ++ build_tail f)
                    ":" Hsch eq_refl) as Hts.
      assert (Hta : take_authority (":" :: x :: p ++ build_tail f)
                    = (None, ":" :: x :: p ++ build_tail f)) by reflexivity.
      destruct (split_tail (":" :: x :: p ++ build_tail f))
        as [[rp rq] rf] eqn:Est.
      destruct (parse_fields_inv _ _ _ _ _ _ _ _ _ Hts Hta Est Hparse)
        as (_ & Hau & _).
      rewrite Ep in Hau. inversion Hau.
  - (* a host name that reads as something else *)
    apply orb_false_iff in Hu as [Hk Hu].
    apply negb_false_iff in Hk. apply Z.eqb_eq in Hk.
    unfold host_kind_ok, kind_ok in Hkind. rewrite Hk in Hkind.
    simpl in Hkind. apply negb_true_iff in Hkind.
    assert (Ha : has_authority f = true).
    { unfold has_authority. rewrite Hkind. reflexivity. }
    rewrite Ha in Hpath. simpl in Hpath.
    unfold built_text, host_text in Hparse. rewrite Ha, Hk in Hparse.
    simpl Z.eqb in Hparse. cbv iota in Hparse.
    destruct (encode_host_free (f_host f)) as [Hfa Hfu].
    set (auth := build_user (f_user f) ++ encode allow_host (f_host f)
                 ++ build_port (f_port f)) in *.
    assert (Hfree : free authority_end auth = true).
    { unfold auth. rewrite !free_app, build_user_free, Hfa.
      rewrite build_port_free; auto. intros c H. by_hex H. }
    replace (build_user (f_user f) ++ encode allow_host (f_host f)
             ++ build_port (f_port f) ++ build_tail f)
      with (auth ++ build_tail f) in Hparse
      by (unfold auth; rewrite <- !app_assoc; reflexivity).
    pose proof (take_scheme_before (f_scheme f)
                  ("/" :: auth ++ build_tail f) "/" Hsch eq_refl) as Hts.
    pose proof (take_authority_built auth _ Hfree (build_tail_starts f Hpath))
      as Hta.
    destruct (parse_fields_inv _ _ _ _ _ _ _ _ _ Hts Hta
                (split_tail_built _ _ _) Hparse) as (_ & Hau & _).
    unfold auth in Hau. rewrite parse_authority_text in Hau by assumption.
    destruct (split_host_port (encode allow_host (f_host f)
                               ++ build_port (f_port f)))
      as [ht pt] eqn:Esp.
    destruct (classify_host ht) as [[h' k']|] eqn:Ec; [|discriminate].
    simpl in Hau. destruct (is_port pt); [|discriminate].
    inversion Hau as [[Hh' Hk' Hpt]]. subst h' pt. rewrite Hk in Hk'. subst k'.
    destruct (is_ipv4 (f_host f)) eqn:E4.
    + (* a dotted quad *)
      pose proof (is_ipv4_chars _ E4) as Hc.
      assert (He : encode allow_host (f_host f) = f_host f).
      { apply encode_id. revert Hc. apply forallb_weaken.
        intros c H. apply (ip4_plain c H). }
      rewrite He in Esp.
      rewrite split_host_port_plain in Esp.
      * inversion Esp; subst ht.
        rewrite (classify_ipv4 _ E4) in Ec. discriminate.
      * apply ipv4_starts. exact E4.
      * rewrite (free_of_class ip4_char) by
          (auto; intros c H; apply (ip4_plain c H)). reflexivity.
      * apply port_free; [|exact Hport]. intros c H. by_hex H.
    + (* a colon and no port *)
      rewrite andb_true_r in Hu. apply orb_false_iff in Hu as [Hc Hn].
      apply negb_false_iff in Hn.
      destruct (f_port f) as [|x p] eqn:Ep; [|discriminate].
      simpl build_port in Esp. rewrite app_nil_r in Esp.
      unfold split_host_port in Esp. rewrite encode_host_starts in Esp.
      assert (Hc' : free (is_char ":") (encode allow_host (f_host f)) = false).
      { destruct (free (is_char ":") (encode allow_host (f_host f))) eqn:E;
          [|reflexivity].
        apply encode_keeps in E; [congruence | reflexivity]. }
      destruct (split_last_some _ _ Hc') as (a & b & Esl & Eh).
      rewrite Esl in Esp. inversion Esp; subst a b.
      apply classify_name_inv in Ec.
      pose proof (decode_encode allow_host (f_host f) eq_refl) as Hd.
      rewrite Eh, (decode_app _ [":"] _ Ec) in Hd. simpl in Hd.
      inversion Hd as [Hl]. apply (f_equal (@List.length ascii)) in Hl.
      rewrite length_app in Hl. simpl in Hl. lia.
Qed.

(** ** The readings of the grammar *)

Lemma readings_all (r : reading) : In r readings.
Proof. destruct r as [[] []]; simpl; auto. Qed.

Lemma parse_fields_in_eq (r : reading) (raw : str) :
  parse_fields_in r raw
  = if scheme_errors r && bad_scheme raw then Throw parse_error
    else parse_fields raw.
Proof.
  unfold parse_fields_in, parse_fields, take_scheme_in, take_scheme,
    bad_scheme.
  destruct (scheme_end raw) as [[a rest]|];
    [destruct (is_scheme a)|]; destruct (scheme_errors r); reflexivity.
Qed.

Lemma parse_fields_in_ok (r : reading) (raw : str) (f : Fields) :
  parse_fields_in r raw = Ok f -> parse_fields raw = Ok f.
Proof.
  rewrite parse_fields_in_eq.
  destruct (scheme_errors r && bad_scheme raw); [discriminate | auto].
Qed.

Lemma built_text_in_eq (r : reading) (f : Fields) :
  built_text_in r f
  = if colon_always r && has_authority f && is_nil (f_scheme f)
    then ":" :: built_text f else built_text f.
Proof.
  unfold built_text_in, built_text, build_separator, build_scheme.
  destruct (f_scheme f) as [|c sch].
  - destruct (colon_always r), (has_authority f); reflexivity.
  - rewrite andb_false_r, orb_true_r. simpl is_nil. cbv iota.
    rewrite <- !app_assoc. destruct (has_authority f); reflexivity.
Qed.

Lemma build_fields_in_ok (r : reading) (f : Fields) :
  well_formed f = true -> build_fields_in r f = Ok (built_text_in r f).
Proof.
  unfold well_formed. intros Hw.
  apply andb_true_iff in Hw as [Hw Hpath].
  apply andb_true_iff in Hw as [Hw Hkind].
  apply andb_true_iff in Hw as [_ Hport].
  unfold build_fields_in. rewrite (build_host_ok f Hkind). simpl rbind.
  rewrite Hport. simpl negb. cbv iota.
  replace (has_authority f && negb (is_nil (f_path f))
           && negb (is_absolute (f_path f))) with false; [reflexivity|].
  destruct (has_authority f); [|reflexivity].
  destruct (is_nil (f_path f)); [reflexivity|].
  simpl in Hpath. rewrite Hpath. reflexivity.
Qed.

Lemma scheme_end_segment (x r : str) :
  free (is_char ":") x = true -> free authority_end x = true ->
  scheme_end (x ++ ":" :: r) = Some (x, r).
Proof.
  induction x as [|c x IH]; [reflexivity|].
  rewrite !free_cons. intros H1 H2.
  apply andb_true_iff in H1 as [Hc H1]. apply andb_true_iff in H2 as [Hd H2].
  apply negb_true_iff in Hc, Hd. unfold is_char in Hc.
  simpl. rewrite Hc, Hd, (IH H1 H2). reflexivity.
Qed.

Lemma encode_segment_free (a : str) :
  free (is_char "/") a = true ->
  free authority_end (encode allow_path a) = true.
Proof.
  intros Ha. apply encode_free; [reflexivity| |].
  - intros c H. by_hex H.
  - intros c Hin Hc. apply allow_path_segment; [exact Hc|].
    unfold free in Ha. rewrite forallb_forall in Ha.
    apply negb_true_iff. apply Ha. exact Hin.
Qed.

Lemma encode_colon_free (a : str) :
  free (is_char ":") a = true ->
  free (is_char ":") (encode allow_path a) = true.
Proof.
  intros Ha. apply encode_free_input; [reflexivity| |exact Ha].
  intros c H. by_hex H.
Qed.

Lemma names_scheme_segment (p : str) :
  names_scheme p = true -> colon_segment p = true.
Proof.
  unfold names_scheme, colon_segment.
  destruct (split_first ":" p) as [[a b]|]; [|discriminate].
  intros H. apply free_of_class with (P := is_scheme_char).
  - intros c Hc. ascii_cases c; try reflexivity; discriminate.
  - apply is_scheme_chars. exact H.
Qed.

(** The scan for the scheme on the text of a relative reference without
    an authority. *)
Lemma bad_scheme_relative (p t : str) :
  names_scheme p = false ->
  starts_stop path_end t = true ->
  bad_scheme (encode allow_path p ++ t) = colon_segment p.
Proof.
  intros Hn Ht. unfold names_scheme in Hn. unfold bad_scheme, colon_segment.
  destruct (split_first ":" p) as [[a b]|] eqn:E.
  - apply split_first_eq in E as [-> Hf].
    rewrite encode_app, encode_cons.
    change (encode_char allow_path ":") with [":"%char].
    rewrite <- app_assoc. simpl app.
    pose proof (encode_colon_free a Hf) as Hf'.
    destruct (free (is_char "/") a) eqn:Es.
    + rewrite (scheme_end_segment _ _ Hf' (encode_segment_free a Es)).
      destruct (is_scheme (encode allow_path a)) eqn:Ei; [|reflexivity].
      apply is_scheme_encode in Ei. congruence.
    + destruct (scheme_end_colon (encode allow_path a)
                  (encode allow_path b ++ t) Hf') as [-> | E2];
        [reflexivity|].
      rewrite E2.
      destruct (is_scheme (encode allow_path a)) eqn:Ei; [|].
      * reflexivity.
      * exfalso.
        assert (Hx : exists a1 a2, a = a1 ++ "/" :: a2
                                   /\ free (is_char "/") a1 = true).
        { clear -Es. induction a as [|c a IH]; [discriminate|].
          rewrite free_cons in Es. unfold is_char at 1 in Es.
          destruct (Ascii.eqb c "/") eqn:Ec.
          - apply Ascii.eqb_eq in Ec. subst c. exists [], a. auto.
          - simpl in Es. destruct (IH Es) as (a1 & a2 & -> & H).
            exists (c :: a1), a2. split; [reflexivity|].
            rewrite free_cons. unfold is_char at 1. rewrite Ec, H.
            reflexivity. }
        destruct Hx as (a1 & a2 & -> & H1).
        rewrite free_app in Hf. apply andb_true_iff in Hf as [Hf1 _].
        rewrite encode_app, encode_cons in E2.
        change (encode_char allow_path "/") with ["/"%char] in E2.
        rewrite <- !app_assoc in E2. simpl app in E2.
        rewrite scheme_end_none in E2; [discriminate| |reflexivity].
        apply encode_colon_free. exact Hf1.
  - apply split_first_none_free in E.
    rewrite scheme_end_none; [reflexivity| |].
    + apply encode_colon_free. exact E.
    + revert Ht. apply starts_stop_weaken.
      intros c H. apply (path_end_authority_end c H).
Qed.

(** The scan for the scheme on the text the builder writes. *)
Lemma bad_scheme_built (f : Fields) :
  well_formed f = true -> unambiguous f = true ->
  bad_scheme (built_text f)
  = negb (has_authority f) && is_nil (f_scheme f)
    && colon_segment (f_path f).
Proof.
  intros Hw Hu. pose proof Hw as Hw'. unfold well_formed in Hw'.
  apply andb_true_iff in Hw' as [Hw' Hpath].
  apply andb_true_iff in Hw' as [Hw' Hkind].
  apply andb_true_iff in Hw' as [Hsch Hport].
  unfold unambiguous in Hu. apply andb_true_iff in Hu as [Hauth _].
  unfold built_text, build_scheme.
  destruct (f_scheme f) as [|c sch] eqn:Es.
  - simpl is_nil. cbv iota. simpl app. rewrite andb_true_r.
    destruct (has_authority f) eqn:Ha; [reflexivity|].
    destruct (no_authority_fields f Ha Hkind) as (Huser & Hhost & Hk).
    simpl in Hauth. apply andb_true_iff in Hauth as [Hauth Hns].
    apply andb_true_iff in Hauth as [Hp _].
    apply negb_true_iff in Hns.
    destruct (f_port f) eqn:Ep; [|discriminate].
    unfold host_text. rewrite Hk, Huser, Hhost. simpl app.
    unfold build_tail. apply bad_scheme_relative; [exact Hns|].
    destruct (f_query f); [|reflexivity].
    apply build_fragment_starts. reflexivity.
  - simpl is_nil. cbv iota. rewrite andb_false_r.
    rewrite <- app_assoc. change ([":"] ++ ?x) with (":" :: x).
    unfold bad_scheme.
    rewrite scheme_end_found by (apply is_scheme_chars; exact Hsch).
    rewrite orb_false_l in Hsch. rewrite Hsch. reflexivity.
Qed.

(** The text that begins with the [:] of ["://"] has no authority. *)
Lemma colon_first_no_authority (x : str) (f : Fields) :
  parse_fields (":" :: x) = Ok f -> has_authority f = false.
Proof.
  intros Hp.
  assert (Hts : take_scheme (":" :: x) = ([], ":" :: x)) by reflexivity.
  assert (Hta : take_authority (":" :: x) = (None, ":" :: x))
    by (destruct x; reflexivity).
  destruct (split_tail (":" :: x)) as [[rawpath rawquery] rawfragment] eqn:Est.
  destruct (parse_fields_inv _ _ _ _ _ _ _ _ _ Hts Hta Est Hp)
    as (_ & Ha & _).
  inversion Ha as [[Hu Hh Hk Hpo]]. unfold has_authority.
  rewrite <- Hu, <- Hh. reflexivity.
Qed.

(** With both readings off the parser and the builder are [parse_fields]
    and [build_fields]. *)
Lemma parse_fields_in_plain (r : reading) (raw : str) :
  scheme_errors r = false -> parse_fields_in r raw = parse_fields raw.
Proof. intros H. rewrite parse_fields_in_eq, H. reflexivity. Qed.

Lemma build_fields_in_plain (r : reading) (f : Fields) :
  colon_always r = false -> build_fields_in r f = build_fields f.
Proof.
  intros H. unfold build_fields_in, build_fields, build_separator,
    build_scheme. rewrite H.
  destruct (build_host f) as [h|e]; [|reflexivity]. simpl rbind.
  destruct (negb (is_port (f_port f))); [reflexivity|].
  destruct (has_authority f && negb (is_nil (f_path f))
            && negb (is_absolute (f_path f))); [reflexivity|].
  destruct (f_scheme f) as [|c sch]; [destruct (has_authority f); reflexivity|].
  simpl is_nil. simpl orb. cbv iota. rewrite <- !app_assoc.
  destruct (has_authority f); reflexivity.
Qed.

Lemma unambiguous_in_plain (r : reading) (f : Fields) :
  scheme_errors r = false -> colon_always r = false ->
  unambiguous_in r f = unambiguous f.
Proof.
  unfold unambiguous_in. intros -> ->. simpl. rewrite !andb_true_r.
  reflexivity.
Qed.

(** In every reading ["a%3Ab"] parses to the path ["a:b"], which is written
    ["a:b"] and parses to scheme ["a"] and path ["b"]. *)
Lemma escaped_colon_in (r : reading) :
  parse_fields_in r (lit "a%3Ab") = Ok fields_a_colon_b
  /\ build_fields_in r fields_a_colon_b = Ok (lit "a:b")
  /\ parse_fields_in r (lit "a:b") = Ok fields_a_b.
Proof. destruct r as [[] []]; repeat split. Qed.

(** ** Round trip *)

(** C3, counterexample: the relative reference ["a%3Ab"] parses to the path
    ["a:b"]; the builder leaves [:] unescaped in a path and writes ["a:b"],
    which parses to scheme ["a"] and path ["b"].  None of this touches a
    malformed scheme or an authority, so it is the same in every reading
    of the grammar. *)
Lemma roundtrip_fails_escaped_colon :
  parse_fields (lit "a%3Ab") = Ok fields_a_colon_b
  /\ build_fields fields_a_colon_b = Ok (lit "a:b")
  /\ parse_fields (lit "a:b") = Ok fields_a_b
  /\ parse_fields (lit "a:b") <> Ok fields_a_colon_b
  /\ reads_back (lit "a%3Ab") = false
  /\ forallb (fun r => negb (reads_back_in r (lit "a%3Ab"))) readings = true.
Proof. repeat split; try reflexivity. discriminate. Qed.

(** C3, amended: in every reading of the grammar, for every text [U] that
    parses to a field set [F], the builder serializes [F], and the
    serialized text parses to [F] again exactly when [F] is unambiguous in
    that reading. *)
Theorem roundtrip_unambiguous (r : reading) (U : str) (F : Fields) :
  parse_fields_in r U = Ok F ->
  exists U',
    build_fields_in r F = Ok U'
    /\ (parse_fields_in r U' = Ok F <-> unambiguous_in r F = true).
Proof.
  intros Hp. apply parse_fields_in_ok in Hp.
  pose proof (parse_well_formed U F Hp) as Hw.
  exists (built_text_in r F). split; [apply build_fields_in_ok; exact Hw|].
  rewrite built_text_in_eq, parse_fields_in_eq. unfold unambiguous_in.
  destruct (colon_always r && has_authority F && is_nil (f_scheme F)) eqn:EA.
  - (* the text begins with the [:] of ["://"] *)
    apply andb_true_iff in EA as [EA Hn]. apply andb_true_iff in EA as [Hc Ha].
    rewrite Hc, Ha, Hn. simpl. rewrite andb_false_r.
    split; [|discriminate]. intros H. exfalso.
    destruct (scheme_errors r && bad_scheme (":" :: built_text F));
      [discriminate|].
    apply colon_first_no_authority in H. congruence.
  - (* the text is that of [build_fields] *)
    assert (Hk : negb (colon_always r) || negb (has_authority F)
                 || negb (is_nil (f_scheme F)) = true).
    { destruct (colon_always r), (has_authority F), (is_nil (f_scheme F));
        try reflexivity; discriminate. }
    rewrite Hk, andb_true_r.
    destruct (unambiguous F) eqn:Hu.
    + rewrite (bad_scheme_built F Hw Hu).
      destruct (build_then_parse F Hw Hu) as (s & Hb & Hs).
      rewrite (build_fields_ok F Hw) in Hb. inversion Hb; subst s.
      rewrite Hs.
      destruct (scheme_errors r), (has_authority F), (is_nil (f_scheme F)),
        (colon_segment (f_path F)); simpl; split; intros H;
        try reflexivity; discriminate.
    + simpl. split; [|discriminate]. intros H. exfalso.
      destruct (scheme_errors r && bad_scheme (built_text F));
        [discriminate|].
      apply (build_then_parse_differs F Hw Hu H).
Qed.

Lemma roundtrip_unambiguous_witness :
  parse_fields_in (mkReading true true) url_full = Ok fields_full
  /\ unambiguous_in (mkReading true true) fields_full = true
  /\ exists U', build_fields_in (mkReading true true) fields_full = Ok U'
                /\ (parse_fields_in (mkReading true true) U' = Ok fields_full
                    <-> unambiguous_in (mkReading true true) fields_full
                        = true).
Proof.
  split; [reflexivity|]. split; [reflexivity|].
  apply (roundtrip_unambiguous (mkReading true true) url_full fields_full).
  reflexivity.
Defined.

(** Texts that do not read back, one for each way of being ambiguous: a
    port without a host, a path that begins with [//] without an authority,
    a relative path that begins with a scheme name, a host name with a [:]
    and no port, a host name that is a dotted quad. *)
Lemma ambiguous_examples :
  forallb (fun U => negb (parsed_unambiguous U) && negb (reads_back U))
    [lit "//:80/x"; lit "http:////x"; lit "a%3Ab"; lit "http://a%3A80/";
     lit "//1%2E2.3.4/x"] = true.
Proof. reflexivity. Qed.

(** Texts that read back although they come close: a host name with a [:]
    before a port, an empty authority before an absolute path, a relative
    path whose first segment has a [:] after a character no scheme has. *)
Lemma unambiguous_examples :
  forallb (fun U => parsed_unambiguous U && reads_back U)
    [lit "//a%3Ab:80/"; lit "file:///x"; lit "a_b%3Ac"; url_full] = true.
Proof. reflexivity. Qed.

(** The same texts in every reading: those that do not read back above do
    not read back in any, and the Url with every component reads back in
    all. *)
Lemma examples_in_every_reading :
  forallb (fun r =>
    forallb (fun U => negb (parsed_unambiguous_in r U)
                      && negb (reads_back_in r U))
      [lit "//:80/x"; lit "http:////x"; lit "a%3Ab"; lit "http://a%3A80/";
       lit "//1%2E2.3.4/x"]
    && parsed_unambiguous_in r url_full && reads_back_in r url_full)
    readings = true.
Proof. reflexivity. Qed.

(** Where the readings part: a relative path whose first segment has a [:]
    after text that is no scheme name reads back when that text makes a
    relative reference and is ambiguous when it is a parse error; a
    reference with an authority and no scheme reads back when it begins
    with ["//"] and is ambiguous when the builder writes ["://"]. *)
Lemma examples_by_reading :
  forallb (fun r =>
    Bool.eqb (parsed_unambiguous_in r (lit "a_b%3Ac"))
             (negb (scheme_errors r))
    && Bool.eqb (reads_back_in r (lit "a_b%3Ac")) (negb (scheme_errors r))
    && Bool.eqb (parsed_unambiguous_in r (lit "//example.com/x"))
                (negb (colon_always r))
    && Bool.eqb (reads_back_in r (lit "//example.com/x"))
                (negb (colon_always r)))
    readings = true.
Proof. reflexivity. Qed.

(** * Further properties of the header *)

(** ** Url::KeyVal *)

(** X1: [KeyVal::operator==] holds exactly when the keys are equal and the
    values are equal; it is reflexive, symmetric and transitive. *)
Theorem KeyVal_eqb_equivalence (a b : KeyVal) :
  (KeyVal_eqb a b = true <-> key a = key b /\ val a = val b)
  /\ KeyVal_eqb a a = true
  /\ KeyVal_eqb a b = KeyVal_eqb b a
  /\ (forall c, KeyVal_eqb a b = true -> KeyVal_eqb b c = true ->
                KeyVal_eqb a c = true).
Proof.
  split; [|split; [|split]].
  - rewrite KeyVal_eqb_eq. destruct a, b; simpl. split.
    + intros H; inversion H; auto.
    + intros [-> ->]; reflexivity.
  - apply KeyVal_eqb_eq. reflexivity.
  - destruct (KeyVal_eqb a b) eqn:E1, (KeyVal_eqb b a) eqn:E2; auto.
    + apply KeyVal_eqb_eq in E1. subst.
      rewrite (proj2 (KeyVal_eqb_eq b b) eq_refl) in E2. discriminate.
    + apply KeyVal_eqb_eq in E2. subst.
      rewrite (proj2 (KeyVal_eqb_eq a a) eq_refl) in E1. discriminate.
  - intros c H1 H2. apply KeyVal_eqb_eq in H1, H2. subst.
    apply KeyVal_eqb_eq. reflexivity.
Qed.

(** X2: [KeyVal::swap] exchanges the two objects as wholes, a second swap
    puts them back, and it keeps [operator==] between them. *)
Theorem swap_exchanges (a q : KeyVal) :
  swap a q = (q, a)
  /\ swap (fst (swap a q)) (snd (swap a q)) = (a, q)
  /\ KeyVal_eqb (fst (swap a q)) (snd (swap a q)) = KeyVal_eqb a q.
Proof.
  destruct a as [ka va], q as [kq vq]. repeat split.
  unfold swap; simpl. unfold KeyVal_eqb; simpl.
  destruct (str_eqb kq ka) eqn:E1, (str_eqb ka kq) eqn:E1',
           (str_eqb vq va) eqn:E2, (str_eqb va vq) eqn:E2'; auto;
    try (apply str_eqb_eq in E1; subst; rewrite str_eqb_refl in E1';
         discriminate);
    try (apply str_eqb_eq in E1'; subst; rewrite str_eqb_refl in E1;
         discriminate);
    try (apply str_eqb_eq in E2; subst; rewrite str_eqb_refl in E2';
         discriminate);
    try (apply str_eqb_eq in E2'; subst; rewrite str_eqb_refl in E2;
         discriminate).
Qed.

(** X3: the setters [key(k)] and [val(v)] of [KeyVal] are independent: each
    is read back by its getter, leaves the other member alone, the two
    commute, the last of two stores wins, and any entry is its key and value
    stored into any other. *)
Theorem KeyVal_setters (k k' v v' : str) (kv other : KeyVal) :
  key (set_key k kv) = k /\ val (set_key k kv) = val kv
  /\ val (set_val v kv) = v /\ key (set_val v kv) = key kv
  /\ set_key k (set_val v kv) = set_val v (set_key k kv)
  /\ set_key k (set_key k' kv) = set_key k kv
  /\ set_val v (set_val v' kv) = set_val v kv
  /\ set_val (val kv) (set_key (key kv) other) = kv
  /\ set_val v (set_key k kv) = KeyVal_key_val k v.
Proof. destruct kv, other. repeat split. Qed.

(** ** Reading *)

Lemma query_at_fresh (parser : str -> res Fields) (i : nat) (u : Url) :
  m_parse u = true ->
  query_at parser i u
  = (match nth_error (m_query u) i with
     | Some kv => Ok kv
     | None => Throw out_of_range
     end, u).
Proof.
  intros H. unfold query_at, bind, get, ret, throw.
  rewrite (parse_url_fresh parser u H).
  destruct (nth_error (m_query u) i); reflexivity.
Qed.

Lemma getter_fresh {A} (parser : str -> res Fields) (field : Url -> A)
    (u : Url) :
  m_parse u = true -> getter parser field u = (Ok (field u), u).
Proof.
  intros H. unfold getter, bind, get, ret.
  rewrite (parse_url_fresh parser u H). reflexivity.
Qed.

Lemma getter_ok {A} (parser : str -> res Fields) (field : Url -> A)
    (u u1 : Url) (a : A) :
  getter parser field u = (Ok a, u1) ->
  parse_url parser u = (Ok tt, u1) /\ a = field u1.
Proof.
  unfold getter, bind, get, ret.
  destruct (parse_url parser u) as [[[]|e] u'] eqn:E; [|discriminate].
  intros H; inversion H; subst. split; reflexivity.
Qed.

(** X4: a field getter that returns leaves the raw string and [m_built] as
    they were and the fields fresh; it returns the member of the object it
    leaves, a second call returns the same without changing the object,
    and every other getter called instead leaves the same object. *)
Theorem getter_frame {A} (parser : str -> res Fields) (field : Url -> A)
    (u u1 : Url) (a : A) :
  getter parser field u = (Ok a, u1) ->
  m_url u1 = m_url u /\ m_built u1 = m_built u /\ m_parse u1 = true
  /\ a = field u1
  /\ getter parser field u1 = (Ok a, u1)
  /\ (forall B (g : Url -> B), getter parser g u = (Ok (g u1), u1)).
Proof.
  intros H. apply getter_ok in H as [Hp ->].
  destruct (parse_url_ok parser u u1 Hp) as (Hu & Hb & Hf).
  repeat split; auto.
  - apply getter_fresh. exact Hf.
  - intros B g. unfold getter, bind, get, ret. rewrite Hp. reflexivity.
Qed.

Lemma getter_frame_witness :
  getter parse_fields m_path (snd (parse (lit "/a%20b?x") Url_default))
  = (Ok (lit "/a b"),
     snd (url_parse_url (snd (parse (lit "/a%20b?x") Url_default))))
  /\ m_url (snd (url_parse_url (snd (parse (lit "/a%20b?x") Url_default))))
     = lit "/a%20b?x".
Proof.
  assert (H : getter parse_fields m_path
                (snd (parse (lit "/a%20b?x") Url_default))
              = (Ok (lit "/a b"),
                 snd (url_parse_url
                        (snd (parse (lit "/a%20b?x") Url_default)))))
    by reflexivity.
  split; [exact H|].
  destruct (getter_frame parse_fields m_path _ _ _ H) as (Hu & _).
  exact Hu.
Defined.

(** X5: [query(i)] agrees with [query()]: when [query()] returns the
    sequence [q], [query(i)] returns the entry of [q] at [i], or throws
    [std::out_of_range] when [q] has none, and leaves the same object. *)
Theorem query_at_agrees_with_query (parser : str -> res Fields)
    (u u1 : Url) (q : Query) (i : nat) :
  query parser u = (Ok q, u1) ->
  query_at parser i u
  = (match nth_error q i with
     | Some kv => Ok kv
     | None => Throw out_of_range
     end, u1).
Proof.
  intros H. apply getter_ok in H as [Hp ->].
  unfold query_at, bind, get, ret, throw. rewrite Hp.
  destruct (nth_error (m_query u1) i); reflexivity.
Qed.

Lemma query_at_agrees_with_query_witness :
  query parse_fields url_a1 = (Ok [KeyVal_key_val (lit "a") (lit "1")], url_a1)
  /\ query_at parse_fields 0 url_a1
     = (Ok (KeyVal_key_val (lit "a") (lit "1")), url_a1)
  /\ query_at parse_fields 3 url_a1 = (Throw out_of_range, url_a1).
Proof.
  assert (H : query parse_fields url_a1
              = (Ok [KeyVal_key_val (lit "a") (lit "1")], url_a1))
    by reflexivity.
  split; [exact H|]. split.
  - exact (query_at_agrees_with_query parse_fields url_a1 url_a1 _ 0 H).
  - exact (query_at_agrees_with_query parse_fields url_a1 url_a1 _ 3 H).
Defined.

(** X6: [toString] caches: when it returns a string, the object it leaves
    has [m_built] set and holds that string, satisfies I1 whatever the
    object was before, and a second call returns the same string and
    changes nothing. *)
Theorem toString_memoizes (parser : str -> res Fields)
    (builder : Fields -> res str) (u u1 : Url) (s : str) :
  toString parser builder u = (Ok s, u1) ->
  m_built u1 = true /\ m_url u1 = s /\ I1 u1 = true
  /\ toString parser builder u1 = (Ok s, u1).
Proof.
  intros H.
  assert (Hb : m_built u1 = true /\ m_url u1 = s).
  { revert H. unfold toString, build_url, bind, get, ret, modify, throw.
    destruct (m_built u) eqn:Eb; simpl.
    - intros H; inversion H; subst. auto.
    - rewrite Eb. destruct (parse_url parser u) as [[[]|e] u'];
        [|discriminate].
      destruct (builder (fields_of u')); [|discriminate].
      intros H; inversion H; subst. auto. }
  destruct Hb as [Hb Hs]. split; [exact Hb|]. split; [exact Hs|]. split.
  - unfold I1. rewrite Hb. apply orb_true_r.
  - unfold toString, bind, get, ret. rewrite Hb. simpl. rewrite Hs.
    reflexivity.
Qed.

Lemma toString_memoizes_witness :
  toString parse_fields build_fields (Url_of_string (lit "a%41"))
  = (Ok (lit "aA"),
     snd (toString parse_fields build_fields (Url_of_string (lit "a%41"))))
  /\ toString parse_fields build_fields
       (snd (toString parse_fields build_fields (Url_of_string (lit "a%41"))))
     = (Ok (lit "aA"),
        snd (toString parse_fields build_fields
               (Url_of_string (lit "a%41")))).
Proof.
  assert (H : toString parse_fields build_fields (Url_of_string (lit "a%41"))
              = (Ok (lit "aA"),
                 snd (toString parse_fields build_fields
                        (Url_of_string (lit "a%41")))))
    by reflexivity.
  split; [exact H|].
  destruct (toString_memoizes parse_fields build_fields _ _ _ H)
    as (_ & _ & _ & H2).
  exact H2.
Defined.

(** ** Assignment of a string *)

(** X7: [parse], and so [operator=] on a string, overwrites everything a
    caller can observe: after it, [toString] and the field getters return
    the same whatever the object was before, and of two assignments in a
    row only the second leaves a trace. *)
Theorem parse_overwrites (parser : str -> res Fields)
    (builder : Fields -> res str) (s t : str) (u1 u2 : Url) :
  visible parser builder (snd (parse s u1))
  = visible parser builder (snd (parse s u2))
  /\ visible parser builder (snd (parse s u1)) = (Ok s, parser s)
  /\ snd (parse t (snd (parse s u1))) = snd (parse t u1)
  /\ snd (assign_string t (snd (assign_string s u1)))
     = snd (assign_string t u1).
Proof.
  assert (H : forall u, visible parser builder (snd (parse s u))
                        = (Ok s, parser s)).
  { intros u. destruct (parse_adopts parser builder s u)
      as (_ & _ & _ & Ht & Hg).
    unfold visible. rewrite Ht, Hg. reflexivity. }
  split; [rewrite !H; reflexivity|]. split; [apply H|].
  split; reflexivity.
Qed.

(** X8: the string constructor and the assignment of the same string agree
    on every field getter: both return what the parser makes of the
    string, and both leave the same fields in the object. *)
Theorem constructor_getters {A} (parser : str -> res Fields)
    (field : Fields -> A) (s : str) (u : Url) :
  fst (getter parser (fun v => field (fields_of v)) (Url_of_string s))
  = rbind (parser s) (fun f => Ok (field f))
  /\ fst (getter parser (fun v => field (fields_of v)) (snd (parse s u)))
     = rbind (parser s) (fun f => Ok (field f))
  /\ (forall f, parser s = Ok f ->
        fields_of (snd (parse_url parser (Url_of_string s))) = f
        /\ fields_of (snd (parse_url parser (snd (parse s u)))) = f).
Proof.
  unfold getter, parse_url, bind, get, ret. simpl.
  destruct (parser s) as [f|e]; simpl.
  - split; [destruct f; reflexivity|]. split; [destruct f; reflexivity|].
    intros f' Hf. inversion Hf; subst. destruct f'. split; reflexivity.
  - split; [reflexivity|]. split; [reflexivity|]. intros f' Hf. discriminate.
Qed.

(** ** Changing the query *)


(** X9: [add_query] appends: the new entry is the last of the sequence
    [query()] returns, [query(n)] returns it where [n] was the length
    before, every entry that was there is still at its index, and the raw
    form is stale. *)
Theorem add_query_appends (parser : str -> res Fields) (u u' : Url)
    (kv : KeyVal) :
  parse_url parser u = (Ok tt, u') ->
  let u1 := snd (add_query parser kv u) in
  fst (add_query parser kv u) = Ok tt
  /\ query parser u1 = (Ok (m_query u' ++ [kv]), u1)
  /\ query_at parser (List.length (m_query u')) u1 = (Ok kv, u1)
  /\ (forall i old, nth_error (m_query u') i = Some old ->
        query_at parser i u1 = (Ok old, u1))
  /\ List.length (m_query u1) = S (List.length (m_query u'))
  /\ m_built u1 = false.
Proof.
  intros Hp. destruct (parse_url_ok parser u u' Hp) as (_ & _ & Hf).
  assert (E : add_query parser kv u
              = (Ok tt, with_query (m_query u' ++ [kv])
                          (with_built false u')))
    by (unfold add_query, bind, modify; rewrite Hp; reflexivity).
  rewrite E. cbn [fst snd].
  set (u1 := with_query (m_query u' ++ [kv]) (with_built false u')).
  assert (Hf1 : m_parse u1 = true) by exact Hf.
  assert (Hq : m_query u1 = m_query u' ++ [kv]) by reflexivity.
  split; [reflexivity|]. split; [|split; [|split; [|split]]].
  - unfold query. rewrite (getter_fresh parser m_query u1 Hf1), Hq.
    reflexivity.
  - rewrite (query_at_fresh parser _ u1 Hf1), Hq.
    rewrite nth_error_app2, Nat.sub_diag by lia. reflexivity.
  - intros i old Hi. rewrite (query_at_fresh parser _ u1 Hf1), Hq.
    rewrite nth_error_app1, Hi; [reflexivity|].
    apply nth_error_Some. congruence.
  - rewrite Hq, length_app. simpl. lia.
  - reflexivity.
Qed.

Lemma add_query_appends_witness :
  parse_url parse_fields url_a1 = (Ok tt, url_a1)
  /\ query_at parse_fields 1
       (snd (add_query parse_fields (KeyVal_key_only (lit "b")) url_a1))
     = (Ok (KeyVal_key_only (lit "b")),
        snd (add_query parse_fields (KeyVal_key_only (lit "b")) url_a1)).
Proof.
  split; [reflexivity|].
  destruct (add_query_appends parse_fields url_a1 url_a1
              (KeyVal_key_only (lit "b")) eq_refl) as (_ & _ & H & _).
  exact H.
Defined.

(** X10: the three overloads of [add_query] agree: appending a key alone
    is appending the key with the empty value, and appending a key and a
    value is appending the [KeyVal] made of them. *)
Theorem add_query_overloads_agree (parser : str -> res Fields) (k v : str)
    (u : Url) :
  add_query_key parser k u = add_query_key_val parser k [] u
  /\ add_query_key parser k u = add_query parser (KeyVal_key_only k) u
  /\ add_query_key_val parser k v u
     = add_query parser (KeyVal_key_val k v) u
  /\ fst (query parser (snd (add_query_key parser k u)))
     = fst (query parser (snd (add_query_key_val parser k [] u))).
Proof. repeat split. Qed.





(** X12: [set_query(q)] is read back and is idempotent: after it
    [query()] returns [q], no field but the query has changed, the raw
    string is untouched, and a second [set_query(q)] changes nothing. *)
Theorem set_query_all_then_query (parser : str -> res Fields) (u u' : Url)
    (q : Query) :
  parse_url parser u = (Ok tt, u') ->
  let u1 := snd (set_query_all parser q u) in
  fst (set_query_all parser q u) = Ok tt
  /\ query parser u1 = (Ok q, u1)
  /\ set_query_all parser q u1 = (Ok tt, u1)
  /\ fields_of u1 = fields_of (with_query q u')
  /\ m_url u1 = m_url u.
Proof.
  intros Hp. destruct (parse_url_ok parser u u' Hp) as (Hu & _ & Hf).
  assert (Hrefl : Query_eqb q q = true) by (apply Query_eqb_eq; reflexivity).
  assert (Hagain : forall v, m_parse v = true -> m_query v = q ->
                             set_query_all parser q v = (Ok tt, v)).
  { intros v Hv Hqv. unfold set_query_all, bind, get, ret.
    rewrite (parse_url_fresh parser v Hv). simpl. rewrite Hqv, Hrefl.
    reflexivity. }
  destruct (Query_eqb q (m_query u')) eqn:E.
  - assert (E1 : set_query_all parser q u = (Ok tt, u'))
      by (unfold set_query_all, bind, get, ret; rewrite Hp; simpl;
          rewrite E; reflexivity).
    rewrite E1. cbn [fst snd]. apply Query_eqb_eq in E.
    split; [reflexivity|]. split; [|split; [|split]].
    + unfold query. rewrite (getter_fresh parser m_query u' Hf), E.
      reflexivity.
    + apply Hagain; auto.
    + rewrite E. destruct u'; reflexivity.
    + exact Hu.
  - assert (E1 : set_query_all parser q u
                 = (Ok tt, with_built false (with_query q u')))
      by (unfold set_query_all, bind, get, ret, modify; rewrite Hp; simpl;
          rewrite E; reflexivity).
    rewrite E1. cbn [fst snd].
    split; [reflexivity|]. split; [|split; [|split]].
    + apply (getter_fresh parser m_query). exact Hf.
    + apply Hagain; [exact Hf | reflexivity].
    + reflexivity.
    + exact Hu.
Qed.

Lemma set_query_all_then_query_witness :
  parse_url parse_fields url_a1 = (Ok tt, url_a1)
  /\ query parse_fields (snd (set_query_all parse_fields query_a1_b_a2 url_a1))
     = (Ok query_a1_b_a2,
        snd (set_query_all parse_fields query_a1_b_a2 url_a1)).
Proof.
  split; [reflexivity|].
  destruct (set_query_all_then_query parse_fields url_a1 url_a1
              query_a1_b_a2 eq_refl) as (_ & H & _).
  exact H.
Defined.

(** X13: when the lazy parse throws, every query accessor and mutator
    throws the same exception and does nothing more: the object is as the
    parse left it and [m_built] is not cleared. *)
Theorem parse_failure_propagates (parser : str -> res Fields) (u u' : Url)
    (e : exn) (i : nat) (q : Query) (kv : KeyVal) (k v : str) :
  parse_url parser u = (Throw e, u') ->
  query parser u = (Throw e, u')
  /\ query_at parser i u = (Throw e, u')
  /\ set_query parser u = (Throw e, u')
  /\ set_query_at parser i u = (Throw e, u')
  /\ set_query_all parser q u = (Throw e, u')
  /\ add_query parser kv u = (Throw e, u')
  /\ add_query_key_val parser k v u = (Throw e, u')
  /\ add_query_key parser k u = (Throw e, u')
  /\ m_built u' = m_built u.
Proof.
  intros Hp.
  unfold query, getter, query_at, set_query, set_query_at, set_query_all,
    add_query, add_query_key_val, add_query_key, bind.
  rewrite Hp. repeat split.
  rewrite (parse_url_throw parser u u' e Hp). reflexivity.
Qed.

Lemma parse_failure_propagates_witness :
  parse_url parse_fields url_bad_escape = (Throw parse_error, url_bad_escape)
  /\ add_query parse_fields (KeyVal_key_only (lit "b")) url_bad_escape
     = (Throw parse_error, url_bad_escape)
  /\ m_built url_bad_escape = true.
Proof.
  split; [reflexivity|].
  destruct (parse_failure_propagates parse_fields url_bad_escape
              url_bad_escape parse_error 0 [] (KeyVal_key_only (lit "b"))
              [] [] eq_refl) as (_ & _ & _ & _ & _ & H & _).
  split; [exact H | reflexivity].
Defined.

Lemma nth_error_update_same (i : nat) (kv old : KeyVal) (q : Query) :
  nth_error q i = Some old -> nth_error (update_nth i kv q) i = Some kv.
Proof.
  revert i. induction q as [|x q IH]; intros [|i]; simpl; try discriminate.
  - reflexivity.
  - apply IH.
Qed.

Lemma nth_error_update_other (i j : nat) (kv : KeyVal) (q : Query) :
  j <> i -> nth_error (update_nth i kv q) j = nth_error q j.
Proof.
  revert i j. induction q as [|x q IH]; intros [|i] [|j] H; simpl;
    try reflexivity; try congruence.
  apply IH. congruence.
Qed.

Lemma length_update_nth (i : nat) (kv : KeyVal) (q : Query) :
  List.length (update_nth i kv q) = List.length q.
Proof.
  revert i. induction q as [|x q IH]; intros [|i]; simpl; auto.
Qed.

(** X14: a store through the reference [set_query(i)] returns replaces the
    entry at [i] and nothing else: [query(i)] then returns the stored
    entry, [query(j)] for every other [j] returns or throws as before the
    call, the sequence keeps its length, and the raw form is stale. *)
Theorem set_query_at_store (parser : str -> res Fields) (u u' : Url)
    (i : nat) (kv old : KeyVal) :
  parse_url parser u = (Ok tt, u') ->
  nth_error (m_query u') i = Some old ->
  let u2 := write_back i kv (snd (set_query_at parser i u)) in
  fst (set_query_at parser i u) = Ok old
  /\ query_at parser i u2 = (Ok kv, u2)
  /\ (forall j, j <> i ->
        fst (query_at parser j u2) = fst (query_at parser j u))
  /\ List.length (m_query u2) = List.length (m_query u')
  /\ m_built u2 = false.
Proof.
  intros Hp Hi. destruct (parse_url_ok parser u u' Hp) as (_ & _ & Hf).
  assert (E : set_query_at parser i u = (Ok old, with_built false u'))
    by (unfold set_query_at, bind, get, ret, modify; rewrite Hp; simpl;
        rewrite Hi; reflexivity).
  rewrite E. cbn [fst snd].
  set (u2 := write_back i kv (with_built false u')).
  assert (Hf2 : m_parse u2 = true) by exact Hf.
  assert (Hq : m_query u2 = update_nth i kv (m_query u')) by reflexivity.
  split; [reflexivity|]. split; [|split; [|split]].
  - rewrite (query_at_fresh parser i u2 Hf2), Hq.
    rewrite (nth_error_update_same i kv old _ Hi). reflexivity.
  - intros j Hj. rewrite (query_at_fresh parser j u2 Hf2), Hq.
    rewrite (nth_error_update_other i j kv _ Hj).
    unfold query_at, bind, get, ret, throw. rewrite Hp. simpl.
    destruct (nth_error (m_query u') j); reflexivity.
  - rewrite Hq. apply length_update_nth.
  - reflexivity.
Qed.

Lemma set_query_at_store_witness :
  (parse_url parse_fields url_a1 = (Ok tt, url_a1)
   /\ nth_error (m_query url_a1) 0 = Some (KeyVal_key_val (lit "a") (lit "1")))
  /\ fst (query_at parse_fields 0
            (write_back 0 (KeyVal_key_only (lit "z"))
               (snd (set_query_at parse_fields 0 url_a1))))
     = Ok (KeyVal_key_only (lit "z")).
Proof.
  split; [split; reflexivity|].
  destruct (set_query_at_store parse_fields url_a1 url_a1 0
              (KeyVal_key_only (lit "z")) _ eq_refl eq_refl)
    as (_ & H & _).
  rewrite H. reflexivity.
Defined.

(** ** The invariant *)

Lemma run_call_I1 (parser : str -> res Fields) (builder : Fields -> res str)
    (c : call) (u : Url) :
  I1 u = true -> I1 (run_call parser builder c u) = true.
Proof.
  intros HI.
  destruct (query_ops_I1 parser u 0 [] (KeyVal_key_only []) HI)
    as (_ & _ & Hsq & _).
  destruct c as [s| | |i| |i store|q|kv]; simpl.
  - reflexivity.
  - apply toString_I1. exact HI.
  - apply getter_I1. exact HI.
  - apply (query_ops_I1 parser u i [] (KeyVal_key_only []) HI).
  - exact Hsq.
  - pose proof (query_ops_I1 parser u i [] (KeyVal_key_only []) HI)
      as (_ & _ & _ & H & _).
    destruct (set_query_at parser i u) as [[kv|e] u1]; simpl in *;
      destruct store; exact H.
  - apply (query_ops_I1 parser u 0 q (KeyVal_key_only []) HI).
  - apply (query_ops_I1 parser u 0 [] kv HI).
Qed.

Lemma run_calls_I1 (parser : str -> res Fields) (builder : Fields -> res str)
    (cs : list call) (u : Url) :
  I1 u = true -> I1 (run_calls parser builder cs u) = true.
Proof.
  revert u. induction cs as [|c cs IH]; intros u HI; [exact HI|].
  simpl. apply IH. apply run_call_I1. exact HI.
Qed.

(** X15: I1 is an invariant of the header: after any sequence of calls on a
    default-constructed object, whether they return or throw, [m_parse] and
    [m_built] are not both false; and whatever the object, the same holds
    from the first assignment of a string on. *)
Theorem I1_invariant (parser : str -> res Fields)
    (builder : Fields -> res str) (cs cs' : list call) (s : str) (u : Url) :
  I1 (run_calls parser builder cs Url_default) = true
  /\ I1 (run_calls parser builder (cs ++ call_parse s :: cs') u) = true.
Proof.
  split; [apply run_calls_I1; reflexivity|].
  revert u. induction cs as [|c cs IH]; intros u.
  - simpl. apply run_calls_I1. reflexivity.
  - simpl. apply IH.
Qed.

(** ** The numeric port *)

(** X16: the numeric port setter works modulo 65536: the string it hands
    to the string setter is the decimal form of the argument reduced to 16
    bits, digits only, not empty, without a leading zero, and reading it as
    a number gives the reduced argument back; so two arguments that differ
    by a multiple of 65536 are the same call. *)
Theorem set_port_num_modulo (parser : str -> res Fields) (num k : Z)
    (u : Url) :
  set_port_num parser (num + 65536 * k) u = set_port_num parser num u
  /\ num_value (to_string (to_uint16 num)) = Z.to_N (num mod 65536)
  /\ forallb is_digit (to_string (to_uint16 num)) = true
  /\ to_string (to_uint16 num) <> []
  /\ (starts_with "0" (to_string (to_uint16 num)) = true ->
      to_string (to_uint16 num) = lit "0")
  /\ (forall num', to_string (to_uint16 num) = to_string (to_uint16 num') ->
                   (num mod 65536 = num' mod 65536)%Z).
Proof.
  split; [|split; [|split; [|split; [|split]]]].
  - unfold set_port_num, to_uint16.
    replace ((num + 65536 * k) mod 65536)%Z with (num mod 65536)%Z;
      [reflexivity|].
    rewrite Z.mul_comm, Z.mod_add by lia. reflexivity.
  - apply to_string_value.
  - apply to_string_digits.
  - unfold to_string. simpl to_string_aux.
    destruct (to_uint16 num / 10 =? 0)%N; [discriminate|].
    rewrite to_string_aux_acc. intros H. apply app_eq_nil in H as [_ H].
    discriminate.
  - intros H. apply to_string_no_leading_zero in H. rewrite H. reflexivity.
  - intros num' H. apply (f_equal num_value) in H.
    rewrite !to_string_value in H. unfold to_uint16 in H.
    pose proof (Z.mod_pos_bound num 65536 ltac:(lia)).
    pose proof (Z.mod_pos_bound num' 65536 ltac:(lia)). lia.
Qed.
